(** * FastfoodNutritionAnalyzer: the ETL and enrichment pipeline

    A shallow embedding of [src/data_loader.py], [src/translator.py],
    [src/classifier.py] and [src/database.py], and the properties of the
    pipeline proved over it.

    Python strings are sequences of Unicode code points; the chunk-size
    arithmetic is carried out over exact rationals (division by [1024 ** 3]
    is exact in binary floating point, the remaining rounding is idealised);
    data frames and the [fastfood] table are lists of rows of cells. *)

From Stdlib Require Import ZArith NArith QArith Qround List Bool Lia Ascii String.
From stdpp Require Import base option list gmap strings.

Set Default Proof Using "Type".

(** ** Python strings *)

Module PyStr.

(** A code point, and a [str]: a sequence of code points. *)
Definition char := N.
Definition str := list char.

Definition in_ranges (table : list (N * N)) (c : char) : bool :=
  existsb (fun r => (fst r <=? c)%N && (c <=? snd r)%N) table.

(** [str.isspace], which is also what [str.strip()] and the pattern [\s]
    test on [str] values (CPython's [Py_UNICODE_ISSPACE]). *)
Definition whitespace_table : list (N * N) :=
  [ (9, 13); (28, 32); (133, 133); (160, 160); (5760, 5760);
    (8192, 8202); (8232, 8233); (8239, 8239); (8287, 8287);
    (12288, 12288) ]%N.

Definition isspace (c : char) : bool := in_ranges whitespace_table c.

(** [str.isdecimal], the test behind the pattern [\d] on [str] values:
    the decimal digits of the Unicode database (14.0.0, CPython 3.11). *)
Definition decimal_table : list (N * N) :=
  [ (48, 57); (1632, 1641); (1776, 1785); (1984, 1993); (2406, 2415);
    (2534, 2543); (2662, 2671); (2790, 2799); (2918, 2927); (3046, 3055);
    (3174, 3183); (3302, 3311); (3430, 3439); (3558, 3567); (3664, 3673);
    (3792, 3801); (3872, 3881); (4160, 4169); (4240, 4249); (6112, 6121);
    (6160, 6169); (6470, 6479); (6608, 6617); (6784, 6793); (6800, 6809);
    (6992, 7001); (7088, 7097); (7232, 7241); (7248, 7257);
    (42528, 42537); (43216, 43225); (43264, 43273); (43472, 43481);
    (43504, 43513); (43600, 43609); (44016, 44025); (65296, 65305);
    (66720, 66729); (68912, 68921); (69734, 69743); (69872, 69881);
    (69942, 69951); (70096, 70105); (70384, 70393); (70736, 70745);
    (70864, 70873); (71248, 71257); (71360, 71369); (71472, 71481);
    (71904, 71913); (72016, 72025); (72784, 72793); (73040, 73049);
    (73120, 73129); (92768, 92777); (92864, 92873); (93008, 93017);
    (120782, 120831); (123200, 123209); (123632, 123641);
    (125264, 125273); (130032, 130041) ]%N.

Definition isdecimal (c : char) : bool := in_ranges decimal_table c.

(** The characters the cleaning code names. *)
Definition QUOTE : char := 34%N.       (* the double quote *)
Definition NEWLINE : char := 10%N.     (* '\n' *)
Definition SPACE : char := 32%N.       (* ' ' *)
Definition ASTERISK : char := 42%N.    (* '*' *)
Definition COMMA : char := 44%N.       (* ',' *)
Definition REGISTERED : char := 174%N. (* the trademark sign U+00AE *)

(** An ASCII literal as a [str]. *)
Fixpoint of_string (s : string) : str :=
  match s with
  | EmptyString => []
  | String a s' => N_of_ascii a :: of_string s'
  end.

Definition char_eqb (a b : char) : bool := (a =? b)%N.

Fixpoint str_eqb (a b : str) : bool :=
  match a, b with
  | [], [] => true
  | x :: a', y :: b' => char_eqb x y && str_eqb a' b'
  | _, _ => false
  end.

(** [s.startswith(p)] and [s.endswith(p)]. *)
Fixpoint startswith (p s : str) : bool :=
  match p, s with
  | [], _ => true
  | x :: p', y :: s' => char_eqb x y && startswith p' s'
  | _ :: _, [] => false
  end.

Definition endswith (p s : str) : bool := startswith (rev p) (rev s).

(** [s[1:]] and [s[:-1]]. *)
Definition slice_from_1 (s : str) : str := drop 1 s.
Definition slice_to_last (s : str) : str := take (length s - 1) s.

(** [s.lstrip()], [s.rstrip()] and [s.strip()]. *)
Fixpoint lstrip (s : str) : str :=
  match s with
  | [] => []
  | c :: t => if isspace c then lstrip t else s
  end.

Fixpoint rstrip (s : str) : str :=
  match s with
  | [] => []
  | c :: t =>
      match rstrip t with
      | [] => if isspace c then [] else [c]
      | t' => c :: t'
      end
  end.

Definition strip (s : str) : str := rstrip (lstrip s).

(** [s.replace(old, new)] for a one-character [old]. *)
Definition replace (old : char) (new : str) (s : str) : str :=
  flat_map (fun c => if char_eqb c old then new else [c]) s.

(** [re.sub(r'\s+', repl, s)]: every maximal run of whitespace becomes
    [repl].  [in_run] tells that the previous character was whitespace. *)
Fixpoint sub_ws_runs (repl : str) (in_run : bool) (s : str) : str :=
  match s with
  | [] => []
  | c :: t =>
      if isspace c
      then (if in_run then [] else repl) ++ sub_ws_runs repl true t
      else c :: sub_ws_runs repl false t
  end.

Definition re_sub_ws (repl s : str) : str := sub_ws_runs repl false s.

(** [re.search(pattern, s) is not None] for the pattern of the second
    step: one or more [\d], the double quote, then [$].  It needs one decimal
    digit followed by the quote, and [$] matches at the very end or just
    before a final newline.  [r] is the string reversed. *)
Definition digit_quote_at_end (r : str) : bool :=
  match r with
  | q :: d :: _ => char_eqb q QUOTE && isdecimal d
  | _ => false
  end.

Definition re_search_size_marker (s : str) : bool :=
  let r := rev s in
  digit_quote_at_end r
  || match r with
     | c :: r' => char_eqb c NEWLINE && digit_quote_at_end r'
     | [] => false
     end.

(** [s.split()]: the maximal runs of non-whitespace characters.
    [split_go] returns the word that starts at the head (possibly empty)
    and the words after it. *)
Definition push_word (w : str) (ws : list str) : list str :=
  match w with [] => ws | _ => w :: ws end.

Fixpoint split_go (s : str) : str * list str :=
  match s with
  | [] => ([], [])
  | c :: t =>
      let '(w, ws) := split_go t in
      if isspace c then ([], push_word w ws) else (c :: w, ws)
  end.

Definition split (s : str) : list str :=
  let '(w, ws) := split_go s in push_word w ws.

(** [sep.join(parts)]. *)
Fixpoint join (sep : str) (parts : list str) : str :=
  match parts with
  | [] => []
  | [p] => p
  | p :: rest => p ++ sep ++ join sep rest
  end.

End PyStr.

Import PyStr.

(** ** [DataLoader.clean_item_name] *)

(** The guard of the second step: a final quote that is not part of a
    size marker (a digit followed by the quote). *)
Definition has_strippable_trailing_quote (item_name : str) : bool :=
  endswith [QUOTE] item_name && negb (re_search_size_marker item_name).

Definition remove_unwanted (item_name : str) : str :=
  replace COMMA [] (replace ASTERISK [] (replace REGISTERED [] item_name)).

Definition clean_item_name (item_name : str) : str :=
  let item_name :=
    if startswith [QUOTE] item_name
    then strip (slice_from_1 item_name) else item_name in
  let item_name :=
    if has_strippable_trailing_quote item_name
    then strip (slice_to_last item_name) else item_name in
  let item_name := strip (remove_unwanted item_name) in
  let item_name := strip (re_sub_ws [SPACE] item_name) in
  item_name.

(** The five steps as the specification lists them, with a single trim
    at the end. *)
Definition strip_leading_quote (s : str) : str :=
  if startswith [QUOTE] s then slice_from_1 s else s.

(** A final quote that no digit immediately precedes. *)
Definition quote_not_after_digit (s : str) : bool :=
  match rev s with
  | q :: before =>
      char_eqb q QUOTE
      && match before with
         | d :: _ => negb (isdecimal d)
         | [] => true
         end
  | [] => false
  end.

Definition strip_trailing_quote (s : str) : str :=
  if quote_not_after_digit s then slice_to_last s else s.

Definition clean_steps (s : str) : str :=
  strip (re_sub_ws [SPACE]
           (remove_unwanted (strip_trailing_quote (strip_leading_quote s)))).

(** The steps as the code orders them: the remainder after a leading quote
    is trimmed before the trailing quote is looked for. *)
Definition strip_leading_quote_and_trim (s : str) : str :=
  if startswith [QUOTE] s then strip (slice_from_1 s) else s.

Definition strip_trailing_quote_and_trim (s : str) : str :=
  if has_strippable_trailing_quote s then strip (slice_to_last s) else s.

Definition clean_steps_trimmed (s : str) : str :=
  strip (re_sub_ws [SPACE]
           (remove_unwanted
              (strip_trailing_quote (strip_leading_quote_and_trim s)))).

(** ** Chunk-size computation *)

(** [int(x)] on a float: truncation toward zero. *)
Definition py_int (x : Q) : Z :=
  if Qle_bool 0 x then Qfloor x else Qceiling x.

(** [1024 ** 3]. *)
Definition GiB : Q := inject_Z (1024 ^ 3).

(** [get_available_memory] of both classes: bytes reported by the system,
    converted to GB. *)
Definition get_available_memory (available_memory_bytes : Z) : Q :=
  (inject_Z available_memory_bytes / GiB)%Q.

Definition Qlt_bool (a b : Q) : bool := negb (Qle_bool b a).

(** Both classes have a [calculate_chunk_size]; a module for each holds
    it.  The other methods have names of their own and stay outside. *)
Module DataLoader.

(** [DataLoader.calculate_chunk_size].  [row_bytes] is the footprint of
    the one-row sample, [n_rows] the row count of the whole file.  [None]
    is the exception raised by [int] when the division by a zero
    footprint yields no finite number. *)
Definition calculate_chunk_size
    (available_memory_gb : Q) (row_bytes n_rows : Z) (memory_fraction : Q)
    : option Z :=
  let csv_size_bytes := (row_bytes * n_rows)%Z in
  let csv_size_gb := (inject_Z csv_size_bytes / GiB)%Q in
  if Qlt_bool csv_size_gb available_memory_gb
  then Some n_rows
  else if (row_bytes =? 0)%Z then None
  else Some (py_int ((memory_fraction * available_memory_gb) * GiB
                     / inject_Z row_bytes)%Q).

End DataLoader.

Module TranslatorModule.

(** [TranslatorModule.calculate_chunk_size]. *)
Definition calculate_chunk_size
    (memory_fraction available_memory_gb : Q) (one_row_memory_usage_bytes : Z)
    : option Z :=
  let allocated_memory_gb := (memory_fraction * available_memory_gb)%Q in
  let one_row_memory_usage_gb :=
    (inject_Z one_row_memory_usage_bytes / GiB)%Q in
  if Qeq_bool one_row_memory_usage_gb 0 then None
  else
    let chunk_size :=
      py_int (allocated_memory_gb / one_row_memory_usage_gb)%Q in
    Some (Z.max chunk_size 1).

End TranslatorModule.



(** ** Cells, data frames and the [fastfood] table *)

(** A value of a data frame or of a table: missing ([None], [NaN],
    [NULL]), an integer, a real or a string. *)
Inductive cell : Type :=
| NA
| CInt (z : Z)
| CReal (q : Q)
| CStr (s : str).

Abbreviation row := (list cell).

Definition is_na (c : cell) : bool :=
  match c with NA => true | _ => false end.

(** A data frame: column names and rows, each row with its index label. *)
Record DataFrame : Type := mkDataFrame {
  df_columns : list string;
  df_rows : list (nat * row)
}.

Fixpoint col_index (name : string) (columns : list string) : option nat :=
  match columns with
  | [] => None
  | c :: rest =>
      if String.eqb c name then Some 0%nat
      else option_map S (col_index name rest)
  end.

(** The schema of [Database.create_table]. *)
Definition fastfood_columns : list string :=
  [ "id"; "restaurant"; "item"; "calories"; "cal_fat"; "total_fat";
    "sat_fat"; "trans_fat"; "cholesterol"; "sodium"; "total_carb";
    "fiber"; "sugar"; "protein"; "vit_a"; "vit_c"; "calcium"; "salad";
    "item_gr"; "category" ]%string.

(** Exceptions. *)
Inductive exn : Type :=
| AttributeError
| KeyError (name : string)
| ValueError
| OverflowError
| OperationalError
| IntegrityError
| TranslationError (kind : N)
| ClusteringError (code : N).

(** [df.dropna()]. *)
Definition row_complete (r : nat * row) : bool :=
  forallb (fun c => negb (is_na c)) (snd r).

Definition dropna (df : DataFrame) : DataFrame :=
  mkDataFrame (df_columns df) (List.filter row_complete (df_rows df)).

(** [DataLoader.drop_nulls]. *)
Definition drop_nulls (df : DataFrame) : DataFrame :=
  let df_cleaned := dropna df in
  df_cleaned.

(** A connection to the database: the durable content of [fastfood] and
    the content the connection sees, which includes what it has written
    and not yet committed. *)
Record Connection : Type := mkConnection {
  committed : list row;
  working : list row
}.

(** ** A state and exception monad *)

Section Monad.
Context {S : Type}.

Definition M (A : Type) : Type := S -> (exn + A) * S.

Definition ret {A} (a : A) : M A := fun st => (inr a, st).

Definition raise {A} (e : exn) : M A := fun st => (inl e, st).

Definition bind {A B} (c : M A) (k : A -> M B) : M B :=
  fun st =>
    match c st with
    | (inr a, st') => k a st'
    | (inl e, st') => (inl e, st')
    end.

Definition get : M S := fun st => (inr st, st).

Definition modify (f : S -> S) : M unit := fun st => (inr tt, f st).

(** [[f(x) for x in xs]], and [Series.apply(f)]. *)
Fixpoint mapM {A B} (f : A -> M B) (xs : list A) : M (list B) :=
  match xs with
  | [] => ret []
  | x :: rest =>
      bind (f x) (fun y => bind (mapM f rest) (fun ys => ret (y :: ys)))
  end.

(** [for x in xs: body(x)]. *)
Fixpoint for_each {A} (xs : list A) (body : A -> M unit) : M unit :=
  match xs with
  | [] => ret tt
  | x :: rest => bind (body x) (fun _ => for_each rest body)
  end.
End Monad.

Arguments M : clear implicits.

Notation "'let*' x := c 'in' k" := (bind c (fun x => k))
  (at level 10, x name, c at level 100, k at level 200).

(** ** SQL statements on a connection *)

Definition cell_at (name : string) (columns : list string) (r : row)
    : option cell :=
  match col_index name columns with
  | Some i => r !! i
  | None => None
  end.

Definition set_cell (name : string) (columns : list string) (v : cell)
    (r : row) : row :=
  match col_index name columns with
  | Some i => <[i := v]> r
  | None => r
  end.

(** The comparison [id = ?] of a [WHERE] clause: [NULL] equals nothing,
    numbers compare by value, strings by content. *)
Definition sql_eqb (a b : cell) : bool :=
  match a, b with
  | CInt x, CInt y => (x =? y)%Z
  | CInt x, CReal y => Qeq_bool (inject_Z x) y
  | CReal x, CInt y => Qeq_bool x (inject_Z y)
  | CReal x, CReal y => Qeq_bool x y
  | CStr x, CStr y => str_eqb x y
  | _, _ => false
  end.

Definition where_id (key : cell) (r : row) : bool :=
  match cell_at "id" fastfood_columns r with
  | Some c => sql_eqb c key
  | None => false
  end.

(** What [UPDATE fastfood SET <column> = v WHERE id = key] makes of the
    rows. *)
Definition update_rows (column : string) (v key : cell) (rows : list row)
    : list row :=
  map (fun r => if where_id key r
                then set_cell column fastfood_columns v r else r) rows.

(** [conn.execute] of that statement with the parameters [(v, key)]. *)
Definition execute_update (column : string) (v key : cell)
    : M Connection unit :=
  modify (fun conn =>
    mkConnection (committed conn) (update_rows column v key (working conn))).

(** [conn.commit()]. *)
Definition commit : M Connection unit :=
  modify (fun conn => mkConnection (working conn) (working conn)).

(** The frame of a query result: a fresh range index. *)
Definition frame_of (columns : list string) (rows : list row) : DataFrame :=
  mkDataFrame columns (imap (fun i r => (i, r)) rows).

(** [pd.read_sql_query("SELECT * FROM fastfood;", conn)]. *)
Definition read_fastfood : M Connection DataFrame :=
  let* conn := get in ret (frame_of fastfood_columns (working conn)).

(** [row[name]] on a row of a frame. *)
Definition row_get {S} (name : string) (columns : list string) (r : row)
    : M S cell :=
  match cell_at name columns r with
  | Some c => ret c
  | None => raise (KeyError name)
  end.

(** Successive [fetchmany(k)] on a cursor. *)
Fixpoint fetch_chunks {A} (fuel k : nat) (rows : list A) : list (list A) :=
  match fuel with
  | O => []
  | Datatypes.S fuel' =>
      match rows with
      | [] => []
      | _ => take k rows :: fetch_chunks fuel' k (drop k rows)
      end
  end.

Definition chunks_of {A} (k : nat) (rows : list A) : list (list A) :=
  fetch_chunks (length rows) k rows.

(** The frames [pd.read_sql_query(..., chunksize=k)] yields: one per
    [fetchmany(k)], and a single empty frame for an empty result. *)
Definition query_chunks (k : nat) (rows : list row) : list (list row) :=
  match rows with
  | [] => [[]]
  | _ => chunks_of k rows
  end.

(** ** [DataLoader]: ingestion *)

(** [clean_item_name] as [Series.apply] calls it on a cell: a value that is
    not a string has no [startswith]. *)
Definition clean_item_cell {S} (c : cell) : M S cell :=
  match c with
  | CStr s => ret (CStr (clean_item_name s))
  | _ => raise AttributeError
  end.

(** [chunk['item'] = chunk['item'].apply(f)]. *)
Definition apply_item {S} (f : cell -> M S cell) (chunk : DataFrame)
    : M S DataFrame :=
  match col_index "item" (df_columns chunk) with
  | None => raise (KeyError "item")
  | Some i =>
      let* items :=
        mapM (fun r => f (default NA (snd r !! i))) (df_rows chunk) in
      ret (mkDataFrame (df_columns chunk)
             (zip_with (fun r c => (fst r, <[i := c]> (snd r)))
                (df_rows chunk) items))
  end.

Definition row_id (r : row) : option Z :=
  match cell_at "id" fastfood_columns r with
  | Some (CInt z) => Some z
  | _ => None
  end.

(** The next value of the [AUTOINCREMENT] key. *)
Definition next_rowid (rows : list row) : Z :=
  1 + fold_right Z.max 0%Z (omap row_id rows).

(** One [INSERT] of [to_sql]: the frame's cells by column name, [NULL]
    for the columns the frame lacks, a fresh [id] unless the frame gives
    one. *)
Definition insert_row (columns : list string) (r : row)
    : M Connection unit :=
  let* conn := get in
  let id_cell :=
    match cell_at "id" columns r with
    | Some (CInt z) => CInt z
    | _ => CInt (next_rowid (working conn))
    end in
  if existsb (where_id id_cell) (working conn) then raise IntegrityError
  else
    let new_row :=
      map (fun name =>
             if String.eqb name "id" then id_cell
             else default NA (cell_at name columns r))
          fastfood_columns in
    modify (fun conn =>
      mkConnection (committed conn) (working conn ++ [new_row])).

(** [DataLoader._insert_chunk]: [chunk.to_sql('fastfood', if_exists='append',
    index=False)], one transaction that commits or rolls back as a whole. *)
Definition _insert_chunk (chunk : DataFrame) : M Connection unit :=
  fun conn =>
    if forallb (fun c => existsb (String.eqb c) fastfood_columns)
         (df_columns chunk)
    then
      match for_each (df_rows chunk)
              (fun r => insert_row (df_columns chunk) (snd r)) conn with
      | (inr _, conn') => commit conn'
      | (inl e, conn') =>
          (inl e, mkConnection (committed conn') (committed conn'))
      end
    else (inl OperationalError, conn).

(** [DataLoader.load_csv_to_db].  [csv] is the parsed source file;
    [available_memory_gb] and [row_bytes] are what the system and the
    one-row sample report. *)
Definition load_csv_to_db (csv : DataFrame)
    (available_memory_gb : Q) (row_bytes : Z) (memory_fraction : Q)
    : M Connection unit :=
  match DataLoader.calculate_chunk_size available_memory_gb row_bytes
          (Z.of_nat (length (df_rows csv))) memory_fraction with
  | None => raise OverflowError
  | Some chunk_size =>
      (* pd.read_csv refuses a chunksize below 1 *)
      if (chunk_size <? 1)%Z then raise ValueError
      else
        for_each (chunks_of (Z.to_nat chunk_size) (df_rows csv))
          (fun rows =>
             let chunk := mkDataFrame (df_columns csv) rows in
             let* chunk := apply_item clean_item_cell chunk in
             let chunk_cleaned := drop_nulls chunk in
             _insert_chunk chunk_cleaned)
  end.

(** ** [TranslatorModule] and [Database.populate_item_gr_column] *)

(** One call of the external translation collaborator, as recorded. *)
Record Call : Type := mkCall {
  call_word : str;
  call_dest : str;
  call_result : exn + str
}.

Section Enrichment.
(** The external translation service: [translator.translate(word,
    dest=lang).text], which returns a text or raises, and may depend on
    and change a state of its own. *)
Variable World : Type.
Variable translate_word : str -> str -> World -> (exn + str) * World.

Record Env : Type := mkEnv {
  conn : Connection;
  world : World;
  calls : list Call
}.

Definition external_translate (word dest : str) : M Env str :=
  fun st =>
    let '(r, w') := translate_word word dest (world st) in
    (r, mkEnv (conn st) w' (calls st ++ [mkCall word dest r])).

Definition on_conn {A} (c : M Connection A) : M Env A :=
  fun st =>
    let '(r, conn') := c (conn st) in
    (r, mkEnv conn' (world st) (calls st)).

(** [TranslatorModule.google_translate_word_by_word]. *)
Definition google_translate_word_by_word (item target_language : str)
    : M Env str :=
  let words := split item in
  let* translated_words :=
    mapM (fun word => external_translate word target_language) words in
  ret (join [SPACE] translated_words).

(** [TranslatorModule.translate_item]. *)
Definition translate_item (dict_translations : gmap str str) (item : str)
    : M Env str :=
  match dict_translations !! item with
  | Some v => ret v
  | None => google_translate_word_by_word item (of_string "el")
  end.

(** [translate_item] as [Series.apply] calls it on a cell: a value that
    is not a string is no key of the dictionary and has no [split]. *)
Definition translate_item_cell (dict_translations : gmap str str)
    (c : cell) : M Env cell :=
  match c with
  | CStr s => let* t := translate_item dict_translations s in ret (CStr t)
  | _ => raise AttributeError
  end.

(** The body of the loop over chunks. *)
Definition populate_chunk (dict_translations : gmap str str)
    (chunk : list row) : M Env unit :=
  let* item_gr :=
    mapM (fun r => translate_item_cell dict_translations
                     (default NA (cell_at "item" fastfood_columns r)))
         chunk in
  let* _ :=
    for_each (zip chunk item_gr)
      (fun rg =>
         let* id := row_get "id" fastfood_columns (fst rg) in
         on_conn (execute_update "item_gr" (snd rg) id)) in
  on_conn commit.

(** [Database.populate_item_gr_column].  The cursor reads lazily, but
    the loop writes [item_gr] only and reads [id] and [item] only, so the
    rows are those of the table when the query was issued. *)
Definition populate_item_gr_column (dict_translations : gmap str str)
    (memory_fraction available_memory_gb : Q)
    (one_row_memory_usage_bytes : Z) : M Env unit :=
  match TranslatorModule.calculate_chunk_size memory_fraction
          available_memory_gb one_row_memory_usage_bytes with
  | None => raise OverflowError
  | Some chunk_size =>
      let* st := get in
      for_each (query_chunks (Z.to_nat chunk_size) (working (conn st)))
        (populate_chunk dict_translations)
  end.
End Enrichment.

Arguments mkEnv {World}.
Arguments external_translate {World}.
Arguments on_conn {World A}.
Arguments google_translate_word_by_word {World}.
Arguments translate_item {World}.
Arguments translate_item_cell {World}.
Arguments populate_chunk {World}.
Arguments populate_item_gr_column {World}.
Arguments conn {World}.
Arguments world {World}.
Arguments calls {World}.

(** ** [Classifier] and [Database.classify_items_and_add_category] *)

Definition features : list string :=
  [ "calories"; "total_fat"; "sugar"; "total_carb"; "protein"; "calcium";
    "fiber" ]%string.

Definition category_mapping (cluster : nat) : option str :=
  match cluster with
  | 0%nat => Some (of_string "Side")
  | 1%nat => Some (of_string "Dessert")
  | 2%nat => Some (of_string "Main")
  | _ => None
  end.

(** [Series.map(category_mapping)]: a value with no entry becomes [NaN]. *)
Definition map_category (cluster : nat) : cell :=
  match category_mapping cluster with
  | Some s => CStr s
  | None => NA
  end.

(** [df.loc[label]] on a frame. *)
Fixpoint loc {A} (label : nat) (rows : list (nat * A)) : option A :=
  match rows with
  | [] => None
  | (i, a) :: rest => if (i =? label)%nat then Some a else loc label rest
  end.

Section Classification.
(** [pd.to_numeric] on a string, and the numeric pipeline of
    [StandardScaler().fit_transform] followed by
    [KMeans(n_clusters, random_state=0).fit_predict], which returns one
    cluster id per row or raises. *)
Variable parse_numeric : str -> option Q.
Variable fit_predict : nat -> list (list Q) -> exn + list nat.

(** [pd.to_numeric(errors='coerce')] on a cell. *)
Definition to_numeric (c : cell) : option Q :=
  match c with
  | NA => None
  | CInt z => Some (inject_Z z)
  | CReal q => Some q
  | CStr s => parse_numeric s
  end.

Definition feature_vector (r : row) : list (option Q) :=
  map (fun f => to_numeric (default NA (cell_at f fastfood_columns r)))
      features.

Definition vector_complete (v : list (option Q)) : bool :=
  forallb (fun x => match x with Some _ => true | None => false end) v.

(** [Classifier.classify_items]. *)
Definition classify_items (n_clusters : nat) : M Connection DataFrame :=
  let* df := read_fastfood in
  let feature_df :=
    map (fun ir => (fst ir, feature_vector (snd ir))) (df_rows df) in
  let feature_df :=
    List.filter (fun ir => vector_complete (snd ir)) feature_df in
  match fit_predict n_clusters
          (map (fun ir => omap (fun x => x) (snd ir)) feature_df) with
  | inl e => raise e
  | inr clusters =>
      if (length clusters =? length feature_df)%nat then
        let category :=
          zip (map fst feature_df) (map map_category clusters) in
        (* df = df.loc[feature_df.index] *)
        let* kept :=
          mapM (fun i => match loc i (df_rows df) with
                         | Some r => ret (i, r)
                         | None => raise (KeyError "index")
                         end)
               (map fst feature_df) in
        (* df['category'] = feature_df['category'] *)
        ret (mkDataFrame (df_columns df)
               (map (fun ir =>
                       (fst ir,
                        set_cell "category" (df_columns df)
                          (default NA (loc (fst ir) category)) (snd ir)))
                    kept))
      else raise ValueError
  end.

(** [Database.classify_items_and_add_category]. *)
Definition classify_items_and_add_category (n_clusters : nat)
    : M Connection unit :=
  let* classified_df := classify_items n_clusters in
  let* _ :=
    for_each (df_rows classified_df)
      (fun ir =>
         let* category :=
           row_get "category" (df_columns classified_df) (snd ir) in
         let* id := row_get "id" (df_columns classified_df) (snd ir) in
         execute_update "category" category id) in
  commit.
End Classification.

(** ** [Database.export_classification_to_csv] *)

(** A written CSV file: the header line and one record per row. *)
Record CsvFile : Type := mkCsvFile {
  csv_header : list string;
  csv_records : list row
}.

(** The file system (regular files by path) and the connection. *)
Record ExportEnv : Type := mkExportEnv {
  files : gmap string CsvFile;
  export_conn : Connection
}.

(** [pd.read_sql_query("SELECT item, item_gr, category FROM fastfood;")]. *)
Definition export_columns : list string :=
  [ "item"; "item_gr"; "category" ]%string.

Definition select_export (rows : list row) : DataFrame :=
  frame_of export_columns
    (map (fun r =>
            map (fun name => default NA (cell_at name fastfood_columns r))
                export_columns)
         rows).

(** [df.to_csv(path, index=False)]. *)
Definition to_csv (df : DataFrame) : CsvFile :=
  mkCsvFile (df_columns df) (map snd (df_rows df)).

Definition export_classification_to_csv (csv_filename : string)
    : M ExportEnv unit :=
  let* _ :=
    (let* st := get in
     match files st !! csv_filename with
     | Some _ =>
         modify (fun st =>
           mkExportEnv (delete csv_filename (files st)) (export_conn st))
     | None => ret tt
     end) in
  let* st := get in
  let df := select_export (working (export_conn st)) in
  modify (fun st =>
    mkExportEnv (<[csv_filename := to_csv df]> (files st)) (export_conn st)).

(** The default destination. *)
Definition default_csv_filename : string := "data/food_categories.csv".

(** ** Sample data *)

(** A row of the table: the key, the item name and the seven features
    are given, the translation and the category are still missing. *)
Definition sample_row (id : Z) (item : string) (calories : cell) : row :=
  [ CInt id; CStr (of_string "Mcdonalds"); CStr (of_string item); calories;
    CInt 60; CInt 7; CReal (2 # 1); CReal 0; CInt 95; CInt 1110; CInt 44;
    CReal (3 # 1); CReal (11 # 1); CReal (37 # 1); CReal (4 # 1);
    CReal (20 # 1); CReal (20 # 1); CStr (of_string "Other"); NA; NA ].

Definition sample_table : list row :=
  [ sample_row 1 "Large Fries" (CInt 510);
    sample_row 2 "Cola" (CInt 140);
    sample_row 3 "Double Burger" (CInt 750) ].

(** The same table, with the calories of the second row missing. *)
Definition sample_table_incomplete : list row :=
  [ sample_row 1 "Large Fries" (CInt 510);
    sample_row 2 "Cola" NA;
    sample_row 3 "Double Burger" (CInt 750) ].

(** A numeric pipeline that deals the cluster ids in turn, and a parser
    that reads no string as a number. *)
Definition sample_fit_predict (n_clusters : nat) (x : list (list Q))
    : exn + list nat :=
  if (n_clusters =? 0)%nat then inl ValueError
  else inr (imap (fun i _ => i mod n_clusters)%nat x).

Definition sample_parse_numeric (s : str) : option Q := None.

(** A source file of three rows, the item of the second one missing. *)
Definition sample_csv : DataFrame :=
  mkDataFrame [ "restaurant"; "item"; "calories" ]%string
    [ (0%nat, [ CStr (of_string "Mcdonalds"); CStr (of_string "Large Fries");
                CInt 510 ]);
      (1%nat, [ CStr (of_string "Mcdonalds"); NA; CInt 140 ]);
      (2%nat, [ CStr (of_string "Mcdonalds"); CStr (of_string "Double Burger");
                CInt 750 ]) ].

(** A source file of three rows with every item present, the calories of
    the second row missing. *)
Definition sample_csv_items : DataFrame :=
  mkDataFrame [ "restaurant"; "item"; "calories" ]%string
    [ (0%nat, [ CStr (of_string "Mcdonalds"); CStr (of_string "Large  Fries*");
                CInt 510 ]);
      (1%nat, [ CStr (of_string "Mcdonalds"); CStr (of_string "Cola"); NA ]);
      (2%nat, [ CStr (of_string "Mcdonalds"); CStr (of_string "Double Burger");
                CInt 750 ]) ].

(** A collaborator that serves two calls and is down from the third on. *)
Definition two_calls_then_down (word dest : str) (served : nat)
    : (exn + str) * nat :=
  if (served <? 2)%nat
  then (inr (word ++ of_string "-" ++ dest), Datatypes.S served)
  else (inl (TranslationError 503), Datatypes.S served).

(** The curated dictionary with one entry. *)
Definition sample_dict : gmap str str :=
  {[ of_string "Cola" := of_string "Kola" ]}.

(** A collaborator that returns every word as it is. *)
Definition echo_collaborator (word dest : str) (served : nat)
    : (exn + str) * nat :=
  (inr word, Datatypes.S served).

(** ** Predicates of the proofs *)

(** A string of whitespace only. *)
Definition WS (w : str) : Prop := Forall (fun c => isspace c = true) w.

(** The last two steps of the cleaning: collapse, then trim. *)
Definition normalize (s : str) : str := strip (re_sub_ws [SPACE] s).

(** A string whose whitespace is single spaces only.  [in_run] tells that
    the character before was whitespace. *)
Fixpoint collapsed (in_run : bool) (s : str) : Prop :=
  match s with
  | [] => True
  | c :: t =>
      if isspace c then c = SPACE /\ in_run = false /\ collapsed true t
      else collapsed false t
  end.

(** A character the third step removes. *)
Definition unwanted (c : char) : bool :=
  char_eqb c REGISTERED || char_eqb c ASTERISK || char_eqb c COMMA.

(** The [PRIMARY KEY] constraint on [id]: every row has an integer key and
    no two rows share one. *)
Definition keyed (rows : list row) : Prop :=
  Forall is_Some (map row_id rows) /\ NoDup (map row_id rows).

(** A row after enrichment: [item_gr] holds a translation of its item (the
    curated one when the dictionary has the item), the rest is as before. *)
Definition enriched (dict_translations : gmap str str) (r r' : row) : Prop :=
  exists item t,
    cell_at "item" fastfood_columns r = Some (CStr item)
    /\ r' = set_cell "item_gr" fastfood_columns (CStr t) r
    /\ (forall v, dict_translations !! item = Some v -> t = v).

(** What updates of [category] by the keys [keys] may make of a row: the
    other cells stay, and the row stays as a whole when none of the keys is
    its own. *)
Definition touched (keys : list cell) (r r' : row) : Prop :=
  (forall name, name <> "category"%string ->
     cell_at name fastfood_columns r' = cell_at name fastfood_columns r)
  /\ (Forall (fun key => where_id key r = false) keys -> r' = r).

(** A call that returned a text. *)
Definition ok_call (c : Call) : Prop := exists t, call_result c = inr t.

(** Calls of which only the last failed, with [e]. *)
Definition failed_with (e : exn) (new : list Call) : Prop :=
  exists ok c, new = ok ++ [c] /\ Forall ok_call ok /\ call_result c = inl e.

(** What a run from [st] to [st'] with result [r] added to the record of
    calls: successful calls only, unless the run raised what its last call
    raised. *)
Definition traced {World A} (st : Env World) (r : exn + A) (st' : Env World)
    : Prop :=
  exists new,
    calls st' = calls st ++ new
    /\ match r with
       | inr _ => Forall ok_call new
       | inl e => Forall ok_call new \/ failed_with e new
       end.

(** A character that cleaning neither removes nor rewrites: no whitespace,
    no quote, none of the three symbols. *)
Definition kept_char (c : char) : bool :=
  negb (isspace c) && negb (unwanted c) && negb (char_eqb c QUOTE).

(** A word: not empty, no whitespace in it. *)
Definition is_word (w : str) : Prop :=
  w <> [] /\ Forall (fun c => isspace c = false) w.

(** The key [insert_row] gives a row, and the row it appends. *)
Definition fresh_id_cell (columns : list string) (r : row) (rows : list row)
    : cell :=
  match cell_at "id" columns r with
  | Some (CInt z) => CInt z
  | _ => CInt (next_rowid rows)
  end.

Definition table_row (columns : list string) (id_cell : cell) (r : row)
    : row :=
  map (fun name =>
         if String.eqb name "id" then id_cell
         else default NA (cell_at name columns r))
      fastfood_columns.

(** A row of a chunk after [clean_item_name] has been applied to its item,
    the cell at position [i]. *)
Definition cleaned (i : nat) (src dst : nat * row) : Prop :=
  fst dst = fst src
  /\ exists s,
       default NA (snd src !! i) = CStr s
       /\ snd dst = <[i := CStr (clean_item_name s)]> (snd src).

(** A row of the table as inserted from a row of a frame: a key of its
    own, the cells of the frame by column name, [NULL] elsewhere. *)
Definition inserted (columns : list string) (src : nat * row) (r : row)
    : Prop :=
  (exists z, cell_at "id" fastfood_columns r = Some (CInt z))
  /\ length r = length fastfood_columns
  /\ forall name,
       In name fastfood_columns -> name <> "id"%string ->
       cell_at name fastfood_columns r
       = Some (default NA (cell_at name columns (snd src))).

(** A row of the table as ingested from a row of the source: its item
    cleaned, then inserted. *)
Definition ingested (columns : list string) (i : nat) (src : nat * row)
    (r : row) : Prop :=
  exists dst, cleaned i src dst /\ inserted columns dst r.

(** The translation of the item of a row returns from every state, into a
    state that [R] relates to it. *)
Definition translates {World}
    (translate_word : str -> str -> World -> (exn + str) * World)
    (dict_translations : gmap str str)
    (R : Env World -> Env World -> Prop) (r : row) : Prop :=
  forall st : Env World,
    exists g st',
      translate_item_cell translate_word dict_translations
        (default NA (cell_at "item" fastfood_columns r)) st = (inr g, st')
      /\ R st st'.

(** The matrix the numeric pipeline receives: the feature vectors of the
    rows that have one in full, in the order of the table. *)
Definition feature_matrix (parse_numeric : str -> option Q)
    (rows : list row) : list (list Q) :=
  map (fun r => omap (fun x => x) (feature_vector parse_numeric r))
    (List.filter
       (fun r => vector_complete (feature_vector parse_numeric r)) rows).

(** The rows of the table that have a complete feature vector, each with
    the category of its cluster: the clusters are dealt in the order of
    the table. *)
Fixpoint marked (parse_numeric : str -> option Q) (rows : list row)
    (clusters : list nat) : list row :=
  match rows with
  | [] => []
  | r :: rest =>
      if vector_complete (feature_vector parse_numeric r) then
        match clusters with
        | k :: ks =>
            set_cell "category" fastfood_columns (map_category k) r
            :: marked parse_numeric rest ks
        | [] => []
        end
      else marked parse_numeric rest clusters
  end.

(** The table with the category of its cluster in every row that has a
    complete feature vector, the other rows as they are. *)
Fixpoint categorized (parse_numeric : str -> option Q) (rows : list row)
    (clusters : list nat) : list row :=
  match rows with
  | [] => []
  | r :: rest =>
      if vector_complete (feature_vector parse_numeric r) then
        match clusters with
        | k :: ks =>
            set_cell "category" fastfood_columns (map_category k) r
            :: categorized parse_numeric rest ks
        | [] => r :: rest
        end
      else r :: categorized parse_numeric rest clusters
  end.

(** What every stage of the pipeline expects of the table and leaves
    behind: nothing uncommitted, the key constraint, rows of full length,
    a string in every item. *)
Definition table_ok (c : Connection) : Prop :=
  committed c = working c
  /\ keyed (working c)
  /\ Forall (fun r : row =>
               length r = length fastfood_columns
               /\ exists s, cell_at "item" fastfood_columns r = Some (CStr s))
       (working c).

Arguments isspace : simpl never.
Arguments isdecimal : simpl never.
Arguments char_eqb : simpl never.

(** * Properties *)

(** ** Whitespace, trimming and collapsing *)

Section StrLemmas.

Lemma WS_nil : WS [].
Proof. constructor. Qed.

Lemma WS_cons c w : isspace c = true -> WS w -> WS (c :: w).
Proof. intros; constructor; assumption. Qed.

Lemma WS_app w1 w2 : WS w1 -> WS w2 -> WS (w1 ++ w2).
Proof. intros; apply Forall_app; split; assumption. Qed.

Lemma lstrip_WS w s : WS w -> lstrip (w ++ s) = lstrip s.
Proof.
  induction 1 as [|c w Hc _ IH]; simpl; [reflexivity|].
  rewrite Hc. exact IH.
Qed.

Lemma lstrip_split s : exists w, WS w /\ s = w ++ lstrip s.
Proof.
  induction s as [|c t [w [Hw Ht]]]; simpl.
  - exists []. split; [apply WS_nil | reflexivity].
  - destruct (isspace c) eqn:Hc.
    + exists (c :: w). split; [apply WS_cons; assumption|].
      simpl. f_equal. exact Ht.
    + exists []. split; [apply WS_nil | reflexivity].
Qed.

Lemma lstrip_no_lead c t : isspace c = false -> lstrip (c :: t) = c :: t.
Proof. intros Hc; simpl; rewrite Hc; reflexivity. Qed.

Lemma lstrip_head s :
  match lstrip s with c :: _ => isspace c = false | [] => True end.
Proof.
  induction s as [|c t IH]; simpl; [exact I|].
  destruct (isspace c) eqn:Hc; [exact IH | exact Hc].
Qed.

Lemma lstrip_idem s : lstrip (lstrip s) = lstrip s.
Proof.
  pose proof (lstrip_head s) as H.
  destruct (lstrip s) as [|c t]; [reflexivity|].
  apply lstrip_no_lead, H.
Qed.

Lemma rstrip_WS_nil w : WS w -> rstrip w = [].
Proof.
  induction 1 as [|c w Hc _ IH]; simpl; [reflexivity|].
  rewrite IH, Hc. reflexivity.
Qed.

Lemma rstrip_WS s w : WS w -> rstrip (s ++ w) = rstrip s.
Proof.
  intros Hw. induction s as [|c t IH]; simpl.
  - apply rstrip_WS_nil, Hw.
  - rewrite IH. reflexivity.
Qed.

Lemma rstrip_split s : exists w, WS w /\ s = rstrip s ++ w.
Proof.
  induction s as [|c t [w [Hw Ht]]]; simpl.
  - exists []. split; [apply WS_nil | reflexivity].
  - destruct (rstrip t) as [|x t'] eqn:Hr.
    + simpl in Ht. subst t. destruct (isspace c) eqn:Hc.
      * exists (c :: w). split; [apply WS_cons; assumption | reflexivity].
      * exists w. split; [assumption | reflexivity].
    + exists w. split; [assumption|]. simpl. f_equal. exact Ht.
Qed.

Lemma rstrip_nil_WS s : rstrip s = [] -> WS s.
Proof.
  intros H. destruct (rstrip_split s) as [w [Hw Hs]].
  rewrite H in Hs. simpl in Hs. subst s. exact Hw.
Qed.

Lemma rstrip_idem s : rstrip (rstrip s) = rstrip s.
Proof.
  induction s as [|c t IH]; simpl; [reflexivity|].
  destruct (rstrip t) as [|x t'] eqn:Hr.
  - destruct (isspace c) eqn:Hc; simpl; [reflexivity|].
    rewrite Hc. reflexivity.
  - change (rstrip (c :: x :: t') = c :: x :: t').
    change (rstrip (c :: x :: t'))
      with (match rstrip (x :: t') with
            | [] => if isspace c then [] else [c]
            | r => c :: r
            end).
    rewrite IH. reflexivity.
Qed.

Lemma lstrip_WS_nil w : WS w -> lstrip w = [].
Proof.
  intros Hw. rewrite <- (app_nil_r w). rewrite lstrip_WS by assumption.
  reflexivity.
Qed.

Lemma strip_comm s : rstrip (lstrip s) = lstrip (rstrip s).
Proof.
  induction s as [|c t IH]; [reflexivity|].
  simpl. destruct (isspace c) eqn:Hc.
  - destruct (rstrip t) as [|x t'] eqn:Hr.
    + rewrite (lstrip_WS_nil t) by (apply rstrip_nil_WS, Hr). reflexivity.
    + rewrite IH. simpl. rewrite Hc. reflexivity.
  - change (rstrip (c :: t))
      with (match rstrip t with
            | [] => if isspace c then [] else [c]
            | r => c :: r
            end).
    destruct (rstrip t) as [|x t']; rewrite ?Hc; simpl; rewrite Hc;
      reflexivity.
Qed.

Lemma strip_idem s : strip (strip s) = strip s.
Proof.
  unfold strip. rewrite (strip_comm (rstrip (lstrip s))).
  rewrite rstrip_idem. rewrite <- strip_comm. rewrite lstrip_idem.
  reflexivity.
Qed.

Lemma strip_split s :
  exists w1 w2, WS w1 /\ WS w2 /\ s = w1 ++ strip s ++ w2.
Proof.
  destruct (lstrip_split s) as [w1 [H1 Hs]].
  destruct (rstrip_split (lstrip s)) as [w2 [H2 Hl]].
  exists w1, w2. repeat split; try assumption.
  unfold strip. rewrite <- Hl. exact Hs.
Qed.

Lemma strip_WS w1 s w2 : WS w1 -> WS w2 -> strip (w1 ++ s ++ w2) = strip s.
Proof.
  intros H1 H2. unfold strip. rewrite lstrip_WS by assumption.
  rewrite (strip_comm (s ++ w2)).
  rewrite rstrip_WS by assumption. symmetry. apply strip_comm.
Qed.

Lemma isspace_SPACE : isspace SPACE = true.
Proof. reflexivity. Qed.

Lemma lstrip_ws_cons c s : isspace c = true -> lstrip (c :: s) = lstrip s.
Proof. intros Hc. simpl. rewrite Hc. reflexivity. Qed.

Lemma col_true_WS w s :
  WS w -> sub_ws_runs [SPACE] true (w ++ s) = sub_ws_runs [SPACE] true s.
Proof.
  induction 1 as [|c w Hc _ IH]; simpl; [reflexivity|].
  rewrite Hc. exact IH.
Qed.

Lemma lstrip_col b s :
  lstrip (sub_ws_runs [SPACE] b s) = lstrip (sub_ws_runs [SPACE] true s).
Proof.
  destruct s as [|c t]; [reflexivity|]. simpl.
  destruct (isspace c); [|reflexivity].
  destruct b; [reflexivity|]. apply lstrip_ws_cons, isspace_SPACE.
Qed.

Lemma lstrip_col_WS b b' w s :
  WS w ->
  lstrip (sub_ws_runs [SPACE] b (w ++ s))
  = lstrip (sub_ws_runs [SPACE] b' s).
Proof.
  intros Hw. rewrite lstrip_col, col_true_WS by assumption.
  symmetry. apply lstrip_col.
Qed.

Lemma col_WS b w : WS w -> WS (sub_ws_runs [SPACE] b w).
Proof.
  intros Hw. revert b. induction Hw as [|c w Hc _ IH]; intros b; simpl.
  - apply WS_nil.
  - rewrite Hc. apply WS_app; [|apply IH].
    destruct b; [apply WS_nil | apply WS_cons; [reflexivity | apply WS_nil]].
Qed.

Lemma col_app_WS b s w :
  WS w ->
  exists u, WS u /\
    sub_ws_runs [SPACE] b (s ++ w) = sub_ws_runs [SPACE] b s ++ u.
Proof.
  intros Hw. revert b. induction s as [|c t IH]; intros b; simpl.
  - exists (sub_ws_runs [SPACE] b w). split; [apply col_WS, Hw | reflexivity].
  - destruct (isspace c).
    + destruct (IH true) as [u [Hu E]]. exists u. split; [exact Hu|].
      rewrite E. rewrite app_assoc. reflexivity.
    + destruct (IH false) as [u [Hu E]]. exists u. split; [exact Hu|].
      rewrite E. reflexivity.
Qed.

Lemma normalize_WS w1 s w2 :
  WS w1 -> WS w2 -> normalize (w1 ++ s ++ w2) = normalize s.
Proof.
  intros H1 H2. unfold normalize, re_sub_ws, strip.
  rewrite (lstrip_col_WS false false w1) by assumption.
  destruct (col_app_WS false s w2 H2) as [u [Hu E]]. rewrite E.
  rewrite (strip_comm (_ ++ u)). rewrite rstrip_WS by assumption.
  symmetry. apply strip_comm.
Qed.

Lemma normalize_strip s : normalize (strip s) = normalize s.
Proof.
  destruct (strip_split s) as [w1 [w2 [H1 [H2 E]]]].
  transitivity (normalize (w1 ++ strip s ++ w2)).
  - symmetry. apply normalize_WS; assumption.
  - rewrite <- E. reflexivity.
Qed.

(** *** Removing the unwanted characters *)

Lemma replace_nil_filter old s :
  replace old [] s = List.filter (fun c => negb (char_eqb c old)) s.
Proof.
  unfold replace. induction s as [|c t IH]; simpl; [reflexivity|].
  rewrite IH. destruct (char_eqb c old); reflexivity.
Qed.

Lemma filter_filter {A} (f g : A -> bool) (l : list A) :
  List.filter f (List.filter g l) = List.filter (fun x => g x && f x) l.
Proof.
  induction l as [|x l IH]; simpl; [reflexivity|].
  destruct (g x); simpl; [destruct (f x)|]; rewrite IH; reflexivity.
Qed.

Lemma remove_unwanted_filter s :
  remove_unwanted s = List.filter (fun c => negb (unwanted c)) s.
Proof.
  unfold remove_unwanted. rewrite !replace_nil_filter, !filter_filter.
  apply List.filter_ext. intros c. unfold unwanted.
  destruct (char_eqb c REGISTERED), (char_eqb c ASTERISK),
    (char_eqb c COMMA); reflexivity.
Qed.

Lemma remove_unwanted_app a b :
  remove_unwanted (a ++ b) = remove_unwanted a ++ remove_unwanted b.
Proof. rewrite !remove_unwanted_filter. apply List.filter_app. Qed.

Lemma isspace_wanted c : isspace c = true -> unwanted c = false.
Proof.
  intros Hc. unfold unwanted, char_eqb.
  destruct (N.eqb_spec c REGISTERED) as [->|_]; [discriminate Hc|].
  destruct (N.eqb_spec c ASTERISK) as [->|_]; [discriminate Hc|].
  destruct (N.eqb_spec c COMMA) as [->|_]; [discriminate Hc|].
  reflexivity.
Qed.

Lemma remove_unwanted_id s :
  Forall (fun c => unwanted c = false) s -> remove_unwanted s = s.
Proof.
  rewrite remove_unwanted_filter.
  induction 1 as [|c t Hc _ IH]; simpl; [reflexivity|].
  rewrite Hc. simpl. rewrite IH. reflexivity.
Qed.

Lemma remove_unwanted_WS w : WS w -> remove_unwanted w = w.
Proof.
  intros Hw. apply remove_unwanted_id.
  eapply Forall_impl; [exact Hw|]. apply isspace_wanted.
Qed.

Lemma remove_unwanted_wanted s :
  Forall (fun c => unwanted c = false) (remove_unwanted s).
Proof.
  rewrite remove_unwanted_filter. apply Forall_forall. intros c Hc.
  apply list_elem_of_In, List.filter_In in Hc. destruct Hc as [_ Hc].
  destruct (unwanted c); [discriminate | reflexivity].
Qed.

Lemma normalize_remove_strip s :
  normalize (remove_unwanted (strip s)) = normalize (remove_unwanted s).
Proof.
  destruct (strip_split s) as [w1 [w2 [H1 [H2 E]]]].
  rewrite E at 2. rewrite !remove_unwanted_app.
  rewrite (remove_unwanted_WS w1), (remove_unwanted_WS w2) by assumption.
  symmetry. apply normalize_WS; assumption.
Qed.

(** *** Strings in collapsed form *)

Lemma collapsed_col b s : collapsed b (sub_ws_runs [SPACE] b s).
Proof.
  revert b. induction s as [|c t IH]; intros b; simpl; [exact I|].
  destruct (isspace c) eqn:Hc.
  - destruct b; simpl; [apply IH|].
    rewrite ?isspace_SPACE. repeat split. apply IH.
  - simpl. rewrite Hc. apply IH.
Qed.

Lemma col_collapsed b s : collapsed b s -> sub_ws_runs [SPACE] b s = s.
Proof.
  revert b. induction s as [|c t IH]; intros b; simpl; [reflexivity|].
  destruct (isspace c).
  - intros [-> [-> H]]. simpl. f_equal. apply IH, H.
  - intros H. f_equal. apply IH, H.
Qed.

Lemma collapsed_lstrip b s : collapsed b s -> collapsed false (lstrip s).
Proof.
  revert b. induction s as [|c t IH]; intros b; simpl; [trivial|].
  destruct (isspace c) eqn:Hc.
  - intros [_ [_ H]]. eapply IH, H.
  - intros H. simpl. rewrite Hc. exact H.
Qed.

Lemma collapsed_rstrip b s : collapsed b s -> collapsed b (rstrip s).
Proof.
  revert b. induction s as [|c t IH]; intros b; [trivial|].
  change (rstrip (c :: t))
    with (match rstrip t with
          | [] => if isspace c then [] else [c]
          | r => c :: r
          end).
  simpl. destruct (isspace c) eqn:Hc.
  - intros [-> [-> H]]. apply IH in H.
    destruct (rstrip t) as [|x r]; [exact I|].
    simpl. rewrite ?Hc. repeat split. exact H.
  - intros H. apply IH in H.
    destruct (rstrip t) as [|x r]; simpl; rewrite Hc; [exact I | exact H].
Qed.

Lemma collapsed_normalize s : collapsed false (normalize s).
Proof.
  unfold normalize, strip, re_sub_ws.
  apply collapsed_rstrip. eapply collapsed_lstrip. apply collapsed_col.
Qed.

Lemma normalize_idem s : normalize (normalize s) = normalize s.
Proof.
  unfold normalize at 1. unfold re_sub_ws.
  rewrite col_collapsed by apply collapsed_normalize.
  unfold normalize. apply strip_idem.
Qed.

(** *** What the steps keep *)

Lemma Forall_strip (P : char -> Prop) s : Forall P s -> Forall P (strip s).
Proof.
  intros H. destruct (strip_split s) as [w1 [w2 [_ [_ E]]]].
  rewrite E in H. apply Forall_app in H. destruct H as [_ H].
  apply Forall_app in H. apply H.
Qed.

Lemma Forall_col (P : char -> Prop) b s :
  P SPACE -> Forall P s -> Forall P (sub_ws_runs [SPACE] b s).
Proof.
  intros HP H. revert b. induction H as [|c t Hc _ IH]; intros b; simpl.
  - constructor.
  - destruct (isspace c).
    + apply Forall_app. split; [|apply IH].
      destruct b; repeat constructor. exact HP.
    + constructor; [exact Hc | apply IH].
Qed.

Lemma Forall_normalize (P : char -> Prop) s :
  P SPACE -> Forall P s -> Forall P (normalize s).
Proof. intros HP H. apply Forall_strip, Forall_col; assumption. Qed.

Lemma length_strip s : (length (strip s) <= length s)%nat.
Proof.
  destruct (strip_split s) as [w1 [w2 [_ [_ E]]]].
  rewrite E at 2. rewrite !length_app. lia.
Qed.

Lemma length_col b s : (length (sub_ws_runs [SPACE] b s) <= length s)%nat.
Proof.
  revert b. induction s as [|c t IH]; intros b; simpl; [lia|].
  destruct (isspace c).
  - rewrite length_app. specialize (IH true). destruct b; simpl; lia.
  - simpl. specialize (IH false). lia.
Qed.

Lemma length_normalize s : (length (normalize s) <= length s)%nat.
Proof.
  unfold normalize, re_sub_ws.
  pose proof (length_strip (sub_ws_runs [SPACE] false s)).
  pose proof (length_col false s). lia.
Qed.

Lemma length_remove_unwanted s :
  (length (remove_unwanted s) <= length s)%nat.
Proof. rewrite remove_unwanted_filter. apply List.filter_length_le. Qed.

End StrLemmas.

(** ** Name cleaning *)

Section CleanItemName.

Lemma clean_item_name_unfold s :
  clean_item_name s
  = normalize (remove_unwanted
      (strip_trailing_quote_and_trim (strip_leading_quote_and_trim s))).
Proof.
  transitivity
    (normalize (strip (remove_unwanted
       (strip_trailing_quote_and_trim (strip_leading_quote_and_trim s))))).
  - reflexivity.
  - apply normalize_strip.
Qed.

Lemma has_strippable_trailing_quote_spec s :
  has_strippable_trailing_quote s = quote_not_after_digit s.
Proof.
  unfold has_strippable_trailing_quote, quote_not_after_digit, endswith,
    re_search_size_marker, digit_quote_at_end.
  destruct (rev s) as [|q [|d before]]; [reflexivity| |]; simpl;
    unfold char_eqb;
    (destruct (N.eqb_spec q QUOTE) as [->|Hq];
     [|destruct (N.eqb_spec QUOTE q); [congruence | reflexivity]]).
  - reflexivity.
  - destruct (isdecimal d); reflexivity.
Qed.

Lemma clean_item_name_normal s : normalize (clean_item_name s) = clean_item_name s.
Proof. rewrite clean_item_name_unfold. apply normalize_idem. Qed.

Lemma clean_item_name_wanted s :
  Forall (fun c => unwanted c = false) (clean_item_name s).
Proof.
  rewrite clean_item_name_unfold.
  apply Forall_normalize; [reflexivity | apply remove_unwanted_wanted].
Qed.

Lemma rev_head_elem_of {A} (l : list A) x r : rev l = x :: r -> x ∈ l.
Proof.
  intros H. apply list_elem_of_In, in_rev. rewrite H. left. reflexivity.
Qed.

Lemma endswith_nonempty p s : endswith [p] s = true -> s <> [].
Proof. intros H ->. discriminate H. Qed.

Lemma length_slice_to_last s :
  s <> [] -> (length (slice_to_last s) < length s)%nat.
Proof.
  intros Hs. unfold slice_to_last. rewrite length_take.
  destruct s; [congruence | simpl; lia].
Qed.

Lemma length_trailing s :
  (length (strip_trailing_quote_and_trim s) <= length s)%nat
  /\ (has_strippable_trailing_quote s = true ->
      (length (strip_trailing_quote_and_trim s) < length s)%nat).
Proof.
  unfold strip_trailing_quote_and_trim.
  destruct (has_strippable_trailing_quote s) eqn:H.
  - assert (Hs : s <> []).
    { unfold has_strippable_trailing_quote in H.
      apply andb_true_iff in H. eapply endswith_nonempty, H. }
    pose proof (length_slice_to_last s Hs).
    pose proof (length_strip (slice_to_last s)). split; [lia|]. intros _. lia.
  - split; [lia | discriminate].
Qed.

Lemma length_leading s :
  (length (strip_leading_quote_and_trim s) <= length s)%nat
  /\ (startswith [QUOTE] s = true ->
      (length (strip_leading_quote_and_trim s) < length s)%nat).
Proof.
  unfold strip_leading_quote_and_trim.
  destruct (startswith [QUOTE] s) eqn:H.
  - destruct s as [|c t]; [discriminate H|].
    pose proof (length_strip (slice_from_1 (c :: t))) as Hl.
    unfold slice_from_1 in *. simpl in *. rewrite drop_0 in *.
    split; [lia|]. intros _. lia.
  - split; [lia | discriminate].
Qed.

Lemma length_clean_item_name s :
  (length (clean_item_name s)
   <= length (strip_trailing_quote_and_trim
                (strip_leading_quote_and_trim s)))%nat.
Proof.
  rewrite clean_item_name_unfold.
  etransitivity; [apply length_normalize | apply length_remove_unwanted].
Qed.

(** A cleaned name with no quote left to strip is a fixed point. *)
Lemma clean_item_name_fixed t :
  normalize t = t ->
  Forall (fun c => unwanted c = false) t ->
  startswith [QUOTE] t = false ->
  has_strippable_trailing_quote t = false ->
  clean_item_name t = t.
Proof.
  intros Hn Hw Hl Ht. rewrite clean_item_name_unfold.
  unfold strip_leading_quote_and_trim. rewrite Hl.
  unfold strip_trailing_quote_and_trim. rewrite Ht.
  rewrite remove_unwanted_id by assumption. exact Hn.
Qed.

(** A name with a quote to strip gets shorter. *)
Lemma clean_item_name_shorter t :
  startswith [QUOTE] t = true \/ has_strippable_trailing_quote t = true ->
  (length (clean_item_name t) < length t)%nat.
Proof.
  intros H. pose proof (length_clean_item_name t) as H0.
  pose proof (length_leading t) as [H1 H1'].
  pose proof (length_trailing (strip_leading_quote_and_trim t)) as [H2 H2'].
  destruct (startswith [QUOTE] t) eqn:Hl.
  - specialize (H1' eq_refl). lia.
  - destruct H as [H|H]; [discriminate|].
    assert (E : strip_leading_quote_and_trim t = t)
      by (unfold strip_leading_quote_and_trim; rewrite Hl; reflexivity).
    rewrite E in *. specialize (H2' H). lia.
Qed.

End CleanItemName.

(** The code against the steps with the early trim. *)
Lemma clean_item_name_trimmed_steps s :
  clean_item_name s = clean_steps_trimmed s.
Proof.
  rewrite clean_item_name_unfold.
  unfold clean_steps_trimmed, strip_trailing_quote,
    strip_trailing_quote_and_trim.
  rewrite <- has_strippable_trailing_quote_spec.
  fold (normalize (remove_unwanted
    (if has_strippable_trailing_quote (strip_leading_quote_and_trim s)
     then slice_to_last (strip_leading_quote_and_trim s)
     else strip_leading_quote_and_trim s))).
  destruct (has_strippable_trailing_quote (strip_leading_quote_and_trim s));
    [apply normalize_remove_strip | reflexivity].
Qed.

(** On a name that does not start with a quote the code is the five steps
    as listed. *)
Lemma clean_item_name_clean_steps s :
  startswith [QUOTE] s = false -> clean_item_name s = clean_steps s.
Proof.
  intros H. rewrite clean_item_name_trimmed_steps.
  unfold clean_steps_trimmed, clean_steps, strip_leading_quote_and_trim,
    strip_leading_quote. rewrite H. reflexivity.
Qed.

(** When a second cleaning changes nothing. *)
Lemma clean_item_name_twice s :
  clean_item_name (clean_item_name s) = clean_item_name s
  <-> startswith [QUOTE] (clean_item_name s) = false
      /\ has_strippable_trailing_quote (clean_item_name s) = false.
Proof.
  split.
  - intros E.
    destruct (startswith [QUOTE] (clean_item_name s)) eqn:Hl;
      [|destruct (has_strippable_trailing_quote (clean_item_name s)) eqn:Ht];
      [| |split; reflexivity].
    + pose proof (clean_item_name_shorter (clean_item_name s) (or_introl Hl)).
      rewrite E in H. lia.
    + pose proof (clean_item_name_shorter (clean_item_name s) (or_intror Ht)).
      rewrite E in H. lia.
  - intros [Hl Ht]. apply clean_item_name_fixed; try assumption.
    + apply clean_item_name_normal.
    + apply clean_item_name_wanted.
Qed.

(** C2, as stated, fails: cleaning two quotes followed by a letter leaves
    one quote, which a second cleaning strips. *)
Lemma clean_item_name_not_idempotent :
  clean_item_name (clean_item_name [QUOTE; QUOTE; 97%N])
  <> clean_item_name [QUOTE; QUOTE; 97%N].
Proof. vm_compute. discriminate. Qed.

(** C2, amended: a second cleaning changes nothing exactly when the cleaned
    name neither starts with a quote nor ends with a quote that the second
    step strips (one not preceded by a digit). *)
Theorem clean_item_name_idempotent_iff (s : str) :
  clean_item_name (clean_item_name s) = clean_item_name s
  <-> startswith [QUOTE] (clean_item_name s) = false
      /\ quote_not_after_digit (clean_item_name s) = false.
Proof.
  rewrite <- has_strippable_trailing_quote_spec. apply clean_item_name_twice.
Qed.

(** Names without any quote are covered: cleaning never adds one. *)
Lemma clean_item_name_idempotent_unquoted (s : str) :
  Forall (fun c => c <> QUOTE) s ->
  clean_item_name (clean_item_name s) = clean_item_name s.
Proof.
  intros Hq. apply clean_item_name_twice.
  assert (Hs : clean_item_name s = normalize (remove_unwanted s)).
  { rewrite clean_item_name_unfold.
    unfold strip_leading_quote_and_trim, strip_trailing_quote_and_trim,
      has_strippable_trailing_quote.
    destruct s as [|c t]; [reflexivity|].
    assert (Hc : startswith [QUOTE] (c :: t) = false).
    { simpl. apply Forall_cons in Hq. destruct Hq as [Hc _].
      unfold char_eqb. destruct (N.eqb_spec QUOTE c); [congruence|reflexivity]. }
    rewrite Hc.
    assert (He : endswith [QUOTE] (c :: t) = false).
    { unfold endswith. destruct (rev (c :: t)) as [|x r] eqn:Hr; [reflexivity|].
      assert (Hx : x ∈ c :: t) by (eapply rev_head_elem_of, Hr).
      rewrite Forall_forall in Hq. specialize (Hq x Hx). simpl.
      unfold char_eqb. destruct (N.eqb_spec QUOTE x); [congruence|reflexivity]. }
    rewrite He. reflexivity. }
  assert (Hall : Forall (fun c => c <> QUOTE) (clean_item_name s)).
  { rewrite Hs. apply Forall_normalize; [discriminate|].
    rewrite remove_unwanted_filter. apply Forall_forall. intros c Hc.
    apply list_elem_of_In, List.filter_In in Hc. destruct Hc as [Hc _].
    rewrite Forall_forall in Hq. apply Hq, list_elem_of_In, Hc. }
  destruct (clean_item_name s) as [|c t]; [split; reflexivity|].
  split.
  - simpl. apply Forall_cons in Hall. destruct Hall as [Hc _].
    unfold char_eqb. destruct (N.eqb_spec QUOTE c); [congruence|reflexivity].
  - unfold has_strippable_trailing_quote, endswith.
    destruct (rev (c :: t)) as [|x r] eqn:Hr; [reflexivity|].
    assert (Hx : x ∈ c :: t) by (eapply rev_head_elem_of, Hr).
    rewrite Forall_forall in Hall. specialize (Hall x Hx). simpl.
    unfold char_eqb. destruct (N.eqb_spec QUOTE x); [congruence|reflexivity].
Qed.

(** C3, as stated, fails: on a quoted name followed by a blank the code
    strips both quotes, the five steps only the first. *)
Lemma clean_item_name_not_clean_steps :
  clean_item_name (QUOTE :: of_string "a" ++ [QUOTE; SPACE])
  <> clean_steps (QUOTE :: of_string "a" ++ [QUOTE; SPACE]).
Proof. vm_compute. discriminate. Qed.

(** C3, amended: the code is the five steps with the remainder after a
    leading quote trimmed before the trailing quote is looked for; the four
    examples hold. *)
Theorem clean_item_name_steps :
  (forall s : str, clean_item_name s = clean_steps_trimmed s)
  /\ clean_item_name (of_string "6" ++ QUOTE :: of_string " Sandwich")
     = of_string "6" ++ QUOTE :: of_string " Sandwich"
  /\ clean_item_name (QUOTE :: of_string "Chicken" ++ [QUOTE])
     = of_string "Chicken"
  /\ clean_item_name (of_string "Chicken Sandwich" ++ [REGISTERED])
     = of_string "Chicken Sandwich"
  /\ clean_item_name
       (of_string "Spicy Chicken" ++ REGISTERED :: of_string " Sandwich *")
     = of_string "Spicy Chicken Sandwich".
Proof.
  split; [|repeat split; reflexivity].
  intros s. apply clean_item_name_trimmed_steps.
Qed.

(** ** Chunk sizes *)

Section ChunkSize.















End ChunkSize.


(** The clamp is missing in [DataLoader.calculate_chunk_size]: one row of
    300 bytes with 100 bytes available gets a chunk size of 0. *)
Lemma loader_chunk_size_zero :
  DataLoader.calculate_chunk_size (get_available_memory 100) 300 1 (1 # 2)
  = Some 0%Z.
Proof. vm_compute. reflexivity. Qed.



(** ** Dropping incomplete rows *)

Section DropNulls.

Lemma row_complete_iff r :
  row_complete r = true <-> Forall (fun c => c <> NA) (snd r).
Proof.
  unfold row_complete. rewrite forallb_forall, Forall_forall.
  split; intros H c Hc.
  - apply list_elem_of_In, H in Hc. destruct c; [discriminate Hc | | |];
      discriminate.
  - apply list_elem_of_In, H in Hc. destruct c; [congruence | | |];
      reflexivity.
Qed.

Lemma filter_sublist {A} (f : A -> bool) (l : list A) :
  List.filter f l `sublist_of` l.
Proof.
  induction l as [|x l IH]; simpl; [constructor|].
  destruct (f x); [apply sublist_skip | apply sublist_cons]; exact IH.
Qed.

Lemma filter_Forall {A} (f : A -> bool) (l : list A) :
  Forall (fun x => f x = true) (List.filter f l).
Proof.
  induction l as [|x l IH]; simpl; [constructor|].
  destruct (f x) eqn:E; [constructor; assumption | exact IH].
Qed.

Lemma filter_greatest {A} (f : A -> bool) (l' l : list A) :
  l' `sublist_of` l -> Forall (fun x => f x = true) l' ->
  l' `sublist_of` List.filter f l.
Proof.
  induction 1 as [|x l1 l2 _ IH|x l1 l2 _ IH]; intros H; simpl.
  - constructor.
  - apply Forall_cons in H. destruct H as [Hx H]. rewrite Hx.
    apply sublist_skip, IH, H.
  - destruct (f x); [apply sublist_cons|]; apply IH, H.
Qed.

End DropNulls.

(** C8: [drop_nulls] keeps the columns and returns the rows without a
    missing value, in their order: a subsequence of the input, of complete
    rows only, that contains every subsequence of complete rows; so it is
    never longer than the input. *)
Theorem drop_nulls_complete_rows (df : DataFrame) :
  df_columns (drop_nulls df) = df_columns df
  /\ df_rows (drop_nulls df) `sublist_of` df_rows df
  /\ Forall (fun r => Forall (fun c => c <> NA) (snd r))
       (df_rows (drop_nulls df))
  /\ (forall rows,
        rows `sublist_of` df_rows df ->
        Forall (fun r => Forall (fun c => c <> NA) (snd r)) rows ->
        rows `sublist_of` df_rows (drop_nulls df))
  /\ (forall r, r ∈ df_rows (drop_nulls df)
                <-> r ∈ df_rows df /\ Forall (fun c => c <> NA) (snd r))
  /\ (length (df_rows (drop_nulls df)) <= length (df_rows df))%nat.
Proof.
  unfold drop_nulls, dropna. simpl. repeat split.
  - apply filter_sublist.
  - eapply Forall_impl; [apply filter_Forall|].
    intros r Hr. apply row_complete_iff, Hr.
  - intros rows Hs Hc. apply filter_greatest; [exact Hs|].
    eapply Forall_impl; [exact Hc|]. intros r Hr. apply row_complete_iff, Hr.
  - apply list_elem_of_In, List.filter_In in H. apply list_elem_of_In, H.
  - apply list_elem_of_In, List.filter_In in H. apply row_complete_iff, H.
  - intros [H1 H2]. apply list_elem_of_In, List.filter_In.
    split; [apply list_elem_of_In, H1 | apply row_complete_iff, H2].
  - apply sublist_length, filter_sublist.
Qed.

(** ** Translation *)

Section Translation.
Variable World : Type.
Variable translate_word : str -> str -> World -> (exn + str) * World.

(** What the word-by-word loop asks of the collaborator. *)
Lemma mapM_external_translate dest words (st : Env World) r st' :
  mapM (fun word => external_translate translate_word word dest) words st
  = (r, st') ->
  conn st' = conn st
  /\ exists new,
       calls st' = calls st ++ new
       /\ Forall (fun c => call_dest c = dest) new
       /\ match r with
          | inr texts =>
              map call_word new = words
              /\ map call_result new = map inr texts
          | inl e =>
              map call_word new `prefix_of` words /\ failed_with e new
          end.
Proof.
  revert st r st'. induction words as [|w ws IH]; intros st r st' E.
  - injection E as <- <-. split; [reflexivity|]. exists [].
    rewrite app_nil_r. repeat split; constructor.
  - simpl in E. unfold bind at 1 in E.
    unfold external_translate at 1 in E.
    destruct (translate_word w dest (world st)) as [r0 w'] eqn:E0.
    destruct r0 as [e|y].
    + injection E as <- <-. split; [reflexivity|].
      exists [mkCall w dest (inl e)]. repeat split.
      * repeat constructor.
      * exists ws. reflexivity.
      * exists [], (mkCall w dest (inl e)). repeat split. constructor.
    + unfold bind at 1 in E.
      destruct (mapM _ ws _) as [r1 st1] eqn:E1.
      apply IH in E1. destruct E1 as [Hc [new [Hn [Hd Hr]]]]. simpl in Hc, Hn.
      destruct r1 as [e|ys]; injection E as <- <-.
      * split; [exact Hc|]. exists (mkCall w dest (inr y) :: new).
        rewrite Hn, <- app_assoc. repeat split.
        -- constructor; [reflexivity | exact Hd].
        -- simpl. apply prefix_cons, Hr.
        -- destruct Hr as [_ [ok [c [-> [Hok He]]]]].
           exists (mkCall w dest (inr y) :: ok), c. repeat split; try assumption.
           constructor; [exists y; reflexivity | exact Hok].
      * split; [exact Hc|]. exists (mkCall w dest (inr y) :: new).
        rewrite Hn, <- app_assoc. repeat split.
        -- constructor; [reflexivity | exact Hd].
        -- simpl. f_equal. apply Hr.
        -- simpl. f_equal. apply Hr.
Qed.

Lemma google_translate_word_by_word_calls item dest (st : Env World) r st' :
  google_translate_word_by_word translate_word item dest st = (r, st') ->
  conn st' = conn st
  /\ exists new,
       calls st' = calls st ++ new
       /\ Forall (fun c => call_dest c = dest) new
       /\ match r with
          | inr text =>
              map call_word new = split item
              /\ exists texts,
                   map call_result new = map inr texts
                   /\ text = join [SPACE] texts
          | inl e =>
              map call_word new `prefix_of` split item /\ failed_with e new
          end.
Proof.
  unfold google_translate_word_by_word, bind. intros E.
  destruct (mapM _ (split item) st) as [r1 st1] eqn:E1.
  apply mapM_external_translate in E1.
  destruct E1 as [Hc [new [Hn [Hd Hr]]]].
  destruct r1 as [e|texts]; injection E as <- <-;
    (split; [exact Hc|]); exists new; repeat split; try assumption;
    try apply Hr.
  exists texts. split; [apply Hr | reflexivity].
Qed.

End Translation.


(** ** Updates by key *)

Section Updates.

Lemma execute_update_eq column v key c :
  execute_update column v key c
  = (inr tt, mkConnection (committed c) (update_rows column v key (working c))).
Proof. reflexivity. Qed.

Lemma col_index_id : col_index "id" fastfood_columns = Some 0%nat.
Proof. reflexivity. Qed.

Lemma where_id_keyed z z' r :
  row_id r = Some z' -> where_id (CInt z) r = (z' =? z)%Z.
Proof.
  unfold row_id, where_id.
  destruct (cell_at "id" fastfood_columns r) as [[| | |]|]; try discriminate.
  intros [= ->]. reflexivity.
Qed.

Lemma row_get_id {S} z r (st : S) :
  row_id r = Some z -> row_get "id" fastfood_columns r st = (inr (CInt z), st).
Proof.
  unfold row_id, row_get.
  destruct (cell_at "id" fastfood_columns r) as [[| | |]|]; try discriminate.
  intros [= ->]. reflexivity.
Qed.

Lemma row_id_set_cell column i v r :
  col_index column fastfood_columns = Some (S i) ->
  row_id (set_cell column fastfood_columns v r) = row_id r.
Proof.
  intros Hc. unfold row_id, cell_at, set_cell. rewrite Hc, col_index_id.
  cbv iota beta. rewrite list_lookup_insert_ne by discriminate. reflexivity.
Qed.

Lemma where_id_set_cell column i v key r :
  col_index column fastfood_columns = Some (S i) ->
  where_id key (set_cell column fastfood_columns v r) = where_id key r.
Proof.
  intros Hc. unfold where_id, cell_at, set_cell. rewrite Hc, col_index_id.
  cbv iota beta. rewrite list_lookup_insert_ne by discriminate. reflexivity.
Qed.

Lemma update_rows_ids column i v key rows :
  col_index column fastfood_columns = Some (S i) ->
  map row_id (update_rows column v key rows) = map row_id rows.
Proof.
  intros Hc. unfold update_rows. rewrite map_map. apply map_ext.
  intros r. destruct (where_id key r); [|reflexivity].
  eapply row_id_set_cell, Hc.
Qed.

Lemma update_rows_app column v key l1 l2 :
  update_rows column v key (l1 ++ l2)
  = update_rows column v key l1 ++ update_rows column v key l2.
Proof. apply map_app. Qed.

Lemma update_rows_other column v z rows :
  Forall is_Some (map row_id rows) ->
  Some z ∉ map row_id rows ->
  update_rows column v (CInt z) rows = rows.
Proof.
  induction rows as [|r rows IH]; simpl; intros Hs Hz; [reflexivity|].
  apply Forall_cons in Hs. destruct Hs as [[z' Hr] Hs].
  apply not_elem_of_cons in Hz. destruct Hz as [Hz1 Hz2].
  rewrite (where_id_keyed z z' r Hr).
  destruct (Z.eqb_spec z' z) as [->|_]; [congruence|].
  f_equal. apply IH; assumption.
Qed.

(** In a keyed table the update reaches the one row with the key. *)
Lemma update_rows_keyed column v z pre r post :
  keyed (pre ++ r :: post) -> row_id r = Some z ->
  update_rows column v (CInt z) (pre ++ r :: post)
  = pre ++ set_cell column fastfood_columns v r :: post.
Proof.
  intros [Hs Hn] Hr. rewrite map_app in Hs, Hn. simpl in Hs, Hn.
  apply Forall_app in Hs. destruct Hs as [Hs1 Hs2].
  apply Forall_cons in Hs2. destruct Hs2 as [_ Hs2].
  apply NoDup_app in Hn. destruct Hn as [_ [Hn1 Hn2]].
  apply NoDup_cons in Hn2. destruct Hn2 as [Hn2 _].
  rewrite update_rows_app. simpl.
  rewrite (where_id_keyed z z r Hr), Z.eqb_refl.
  rewrite !update_rows_other; try assumption; try reflexivity.
  - rewrite <- Hr. exact Hn2.
  - intros Hin. apply (Hn1 _ Hin). rewrite Hr. left.
Qed.

Lemma keyed_same_ids rows rows' :
  map row_id rows' = map row_id rows -> keyed rows -> keyed rows'.
Proof. unfold keyed. intros ->. trivial. Qed.

End Updates.

(** ** Enrichment *)

Section EnrichmentRun.
Variable World : Type.
Variable translate_word : str -> str -> World -> (exn + str) * World.
Variable dict_translations : gmap str str.

Lemma traced_same {A} (st st' : Env World) (r : exn + A) :
  calls st' = calls st -> traced st r st'.
Proof.
  intros H. exists []. rewrite app_nil_r. split; [exact H|].
  destruct r; [left|]; constructor.
Qed.

Lemma traced_then {A B} (st st1 st2 : Env World) (a : A) (r : exn + B) :
  traced st (inr a) st1 -> traced st1 r st2 -> traced st r st2.
Proof.
  intros [n1 [H1 Hok]] [n2 [H2 Hr]]. exists (n1 ++ n2).
  split; [rewrite H2, H1, app_assoc; reflexivity|].
  destruct r as [e|b].
  - destruct Hr as [Hr|[ok [c [-> [Hr He]]]]].
    + left. apply Forall_app. split; assumption.
    + right. exists (n1 ++ ok), c. rewrite app_assoc. repeat split; try assumption.
      apply Forall_app. split; assumption.
  - apply Forall_app. split; assumption.
Qed.

Lemma traced_result {A B} (st st' : Env World) (r : exn + A) (r' : exn + B) :
  match r, r' with
  | inl e, inl e' => e = e'
  | inr _, inr _ => True
  | _, _ => False
  end ->
  traced st r st' -> traced st r' st'.
Proof.
  intros H [new [Hn Hr]]. exists new. split; [exact Hn|].
  destruct r, r'; try contradiction; subst; assumption.
Qed.


Lemma translate_item_traced item (st : Env World) r st' :
  translate_item translate_word dict_translations item st = (r, st') ->
  conn st' = conn st
  /\ traced st r st'
  /\ (forall t, r = inr t ->
      forall v, dict_translations !! item = Some v -> t = v).
Proof.
  unfold translate_item.
  destruct (dict_translations !! item) as [v|] eqn:Hd.
  - intros [= <- <-]. split; [reflexivity|].
    split; [apply traced_same; reflexivity|].
    intros t [= <-] v' [= <-]. reflexivity.
  - intros E. apply google_translate_word_by_word_calls in E.
    destruct E as [Hc [new [Hn [_ Hr]]]]. split; [exact Hc|].
    split; [|discriminate].
    exists new. split; [exact Hn|]. destruct r as [e|text].
    + right. apply Hr.
    + destruct Hr as [_ [texts [Hr _]]]. apply Forall_forall. intros c Hc'.
      apply (list_elem_of_fmap_2 call_result) in Hc'.
      change (call_result <$> new) with (map call_result new) in Hc'.
      rewrite Hr in Hc'.
      change (map inr texts) with ((@inr exn str) <$> texts) in Hc'.
      apply list_elem_of_fmap in Hc'. destruct Hc' as [t [Ht _]].
      exists t. exact Ht.
Qed.

Lemma translate_item_cell_traced c (st : Env World) r st' :
  translate_item_cell translate_word dict_translations c st = (r, st') ->
  conn st' = conn st
  /\ traced st r st'
  /\ (forall g, r = inr g ->
      exists item t,
        c = CStr item /\ g = CStr t
        /\ (forall v, dict_translations !! item = Some v -> t = v)).
Proof.
  destruct c as [| | |item]; simpl;
    try (intros [= <- <-]; split; [reflexivity|];
         split; [apply traced_same; reflexivity | discriminate]).
  unfold bind.
  destruct (translate_item _ _ item st) as [r0 st0] eqn:E0.
  apply translate_item_traced in E0. destruct E0 as [Hc [Ht Hd]].
  destruct r0 as [e|t]; intros [= <- <-]; (split; [exact Hc|]).
  - split; [exact Ht | discriminate].
  - split; [eapply traced_result, Ht; exact I|].
    intros g [= <-]. exists item, t. repeat split. apply Hd. reflexivity.
Qed.

(** The translation phase of a chunk writes nothing. *)
Lemma translate_chunk_traced chunk (st : Env World) r st' :
  mapM (fun row =>
          translate_item_cell translate_word dict_translations
            (default NA (cell_at "item" fastfood_columns row)))
       chunk st = (r, st') ->
  conn st' = conn st
  /\ traced st r st'
  /\ (forall vals, r = inr vals ->
      Forall2 (fun row g =>
                 exists item t,
                   cell_at "item" fastfood_columns row = Some (CStr item)
                   /\ g = CStr t
                   /\ (forall v, dict_translations !! item = Some v -> t = v))
              chunk vals).
Proof.
  revert st r st'. induction chunk as [|row chunk IH]; intros st r st'.
  - intros [= <- <-]. split; [reflexivity|].
    split; [apply traced_same; reflexivity|].
    intros vals [= <-]. constructor.
  - simpl. unfold bind at 1.
    destruct (translate_item_cell _ _ _ st) as [r0 st0] eqn:E0.
    apply translate_item_cell_traced in E0. destruct E0 as [Hc0 [Ht0 Hd0]].
    destruct r0 as [e|g].
    + intros [= <- <-]. split; [exact Hc0|]. split; [exact Ht0|discriminate].
    + unfold bind at 1.
      destruct (mapM _ chunk st0) as [r1 st1] eqn:E1.
      apply IH in E1. destruct E1 as [Hc1 [Ht1 Hd1]].
      destruct r1 as [e|gs]; intros [= <- <-];
        (split; [congruence|]).
      * split; [eapply traced_then; eassumption | discriminate].
      * split.
        -- eapply traced_then; [exact Ht0|].
           eapply traced_result, Ht1. exact I.
        -- intros vals [= <-]. constructor; [|apply Hd1; reflexivity].
           destruct (Hd0 g eq_refl) as [item [t [Hi [Hg Hv]]]].
           exists item, t. repeat split; try assumption.
           destruct (cell_at "item" fastfood_columns row) as [c|];
             simpl in Hi; [congruence | discriminate].
Qed.

Lemma keyed_row_id pre r post :
  keyed (pre ++ r :: post) -> exists z, row_id r = Some z.
Proof.
  intros [Hs _]. rewrite map_app in Hs. apply Forall_app in Hs.
  destruct Hs as [_ Hs]. simpl in Hs. apply Forall_cons in Hs.
  destruct Hs as [[z Hz] _]. exists z. exact Hz.
Qed.

(** The write phase of a chunk sets [item_gr] in the rows of the chunk. *)
Lemma update_loop pre chunk post vals (st : Env World) :
  length vals = length chunk ->
  keyed (pre ++ chunk ++ post) ->
  working (conn st) = pre ++ chunk ++ post ->
  for_each (zip chunk vals)
    (fun rg =>
       let* id := row_get "id" fastfood_columns (fst rg) in
       on_conn (execute_update "item_gr" (snd rg) id)) st
  = (inr tt,
     mkEnv
       (mkConnection (committed (conn st))
          (pre
           ++ zip_with (fun r v => set_cell "item_gr" fastfood_columns v r)
                chunk vals
           ++ post))
       (world st) (calls st)).
Proof.
  revert pre vals st. induction chunk as [|r chunk IH]; intros pre vals st Hl Hk Hw.
  - destruct st as [[cm wk] w cs]. simpl in *. subst wk. reflexivity.
  - destruct vals as [|v vals]; [discriminate Hl|].
    destruct (keyed_row_id pre r (chunk ++ post) Hk) as [z Hz].
    assert (Hid : row_id (set_cell "item_gr" fastfood_columns v r) = row_id r)
      by (eapply row_id_set_cell; reflexivity).
    simpl zip. simpl for_each. unfold bind at 1. unfold bind at 1.
    simpl fst. simpl snd. rewrite (row_get_id z r st Hz).
    unfold on_conn at 1. rewrite execute_update_eq.
    rewrite Hw. simpl app.
    rewrite (update_rows_keyed "item_gr" v z pre r (chunk ++ post) Hk Hz).
    rewrite (IH (pre ++ [set_cell "item_gr" fastfood_columns v r]) vals).
    + simpl. rewrite <- !app_assoc. reflexivity.
    + simpl in Hl. lia.
    + eapply keyed_same_ids, Hk. rewrite <- !app_assoc. simpl.
      rewrite !map_app. simpl. rewrite Hid. reflexivity.
    + simpl. rewrite <- !app_assoc. reflexivity.
Qed.

Lemma populate_chunk_spec pre chunk post (st : Env World) r st' :
  keyed (pre ++ chunk ++ post) ->
  working (conn st) = pre ++ chunk ++ post ->
  populate_chunk translate_word dict_translations chunk st = (r, st') ->
  traced st r st'
  /\ match r with
     | inr _ =>
         exists E,
           Forall2 (enriched dict_translations) chunk E
           /\ conn st' = mkConnection (pre ++ E ++ post) (pre ++ E ++ post)
     | inl _ => conn st' = conn st
     end.
Proof.
  intros Hk Hw. unfold populate_chunk. unfold bind at 1.
  destruct (mapM _ chunk st) as [r1 st1] eqn:E1.
  apply translate_chunk_traced in E1. destruct E1 as [Hc [Ht Hd]].
  destruct r1 as [e|vals].
  - intros [= <- <-]. split; assumption.
  - specialize (Hd vals eq_refl). unfold bind at 1.
    rewrite (update_loop pre chunk post vals st1);
      [|symmetry; eapply Forall2_length, Hd | exact Hk | congruence].
    unfold on_conn, commit, modify. simpl. intros [= <- <-]. split.
    + eapply traced_then; [exact Ht|]. apply traced_same. reflexivity.
    + eexists. split; [|reflexivity].
      clear -Hd. induction Hd as [|row g chunk vals [item [t [Hi [-> Hv]]]] _ IH];
        simpl; constructor; [|exact IH].
      exists item, t. repeat split; assumption.
Qed.

Lemma enriched_row_id r r' :
  enriched dict_translations r r' -> row_id r' = row_id r.
Proof.
  intros [item [t [_ [-> _]]]]. eapply row_id_set_cell. reflexivity.
Qed.

Lemma enriched_ids rows rows' :
  Forall2 (enriched dict_translations) rows rows' ->
  map row_id rows' = map row_id rows.
Proof.
  induction 1 as [|r r' rows rows' H _ IH]; simpl; [reflexivity|].
  rewrite (enriched_row_id r r' H), IH. reflexivity.
Qed.

(** The loop over the chunks: it stops at the first chunk whose
    translation raises, with the chunks before it written and committed
    and that chunk and the later ones as they were. *)
Lemma populate_loop chunks pre (st : Env World) r st' :
  keyed (pre ++ concat chunks) ->
  working (conn st) = pre ++ concat chunks ->
  for_each chunks (populate_chunk translate_word dict_translations) st
  = (r, st') ->
  traced st r st'
  /\ exists done E rest,
       chunks = done ++ rest
       /\ Forall2 (enriched dict_translations) (concat done) E
       /\ working (conn st') = pre ++ E ++ concat rest
       /\ (done <> [] -> committed (conn st') = working (conn st'))
       /\ (done = [] -> conn st' = conn st)
       /\ match r with inr _ => rest = [] | inl _ => rest <> [] end.
Proof.
  revert pre st r st'.
  induction chunks as [|chunk chunks IH]; intros pre st r st' Hk Hw.
  - intros [= <- <-]. split; [apply traced_same; reflexivity|].
    exists [], [], []. split; [reflexivity|]. split; [constructor|].
    split; [exact Hw|]. split; [congruence|]. split; reflexivity.
  - simpl for_each. unfold bind at 1. simpl concat in Hk, Hw.
    destruct (populate_chunk _ _ chunk st) as [r1 st1] eqn:E1.
    apply (populate_chunk_spec pre chunk (concat chunks)) in E1;
      [|assumption|assumption].
    destruct E1 as [Ht1 Hr1]. destruct r1 as [e|[]].
    + intros [= <- <-]. split; [exact Ht1|].
      exists [], [], (chunk :: chunks). split; [reflexivity|].
      split; [constructor|]. split; [rewrite Hr1; exact Hw|].
      split; [congruence|]. split; [intros _; exact Hr1 | discriminate].
    + destruct Hr1 as [E1 [HE1 Hc1]]. intros E.
      apply (IH (pre ++ E1)) in E.
      * destruct E as [Ht [done [E2 [rest [-> [HE2 [Hw' [Hcm [Hsame Hr]]]]]]]]].
        split; [eapply traced_then; eassumption|].
        exists (chunk :: done), (E1 ++ E2), rest. split; [reflexivity|].
        split; [simpl; apply Forall2_app; assumption|].
        split; [rewrite Hw', <- !app_assoc; reflexivity|].
        split; [|split; [discriminate | exact Hr]].
        intros _. destruct done as [|d done].
        -- rewrite (Hsame eq_refl), Hc1. reflexivity.
        -- apply Hcm. discriminate.
      * eapply keyed_same_ids, Hk. rewrite <- !app_assoc, !map_app.
        rewrite (enriched_ids _ _ HE1). reflexivity.
      * rewrite Hc1. simpl. rewrite <- app_assoc. reflexivity.
Qed.

Lemma concat_fetch_chunks {A} fuel k (rows : list A) :
  (1 <= k)%nat -> (length rows <= fuel)%nat ->
  concat (fetch_chunks fuel k rows) = rows.
Proof.
  intros Hk. revert rows. induction fuel as [|fuel IH]; intros rows Hf.
  - destruct rows; [reflexivity | simpl in Hf; lia].
  - destruct rows as [|x rows]; [reflexivity|].
    change (fetch_chunks (S fuel) k (x :: rows))
      with (take k (x :: rows) :: fetch_chunks fuel k (drop k (x :: rows))).
    simpl concat. rewrite IH.
    + apply take_drop.
    + rewrite length_drop. simpl in *. lia.
Qed.

Lemma concat_query_chunks k rows :
  (1 <= k)%nat -> concat (query_chunks k rows) = rows.
Proof.
  intros Hk. unfold query_chunks, chunks_of.
  destruct rows; [reflexivity|]. apply concat_fetch_chunks; [exact Hk | lia].
Qed.

Lemma translator_chunk_size_pos f a p chunk_size :
  TranslatorModule.calculate_chunk_size f a p = Some chunk_size ->
  (1 <= Z.to_nat chunk_size)%nat.
Proof.
  unfold TranslatorModule.calculate_chunk_size.
  destruct (Qeq_bool _ 0); [discriminate|]. intros [= <-]. lia.
Qed.

Lemma populate_item_gr_column_spec f a p (st : Env World) r st' :
  keyed (working (conn st)) ->
  populate_item_gr_column translate_word dict_translations f a p st
  = (r, st') ->
  traced st r st'
  /\ (TranslatorModule.calculate_chunk_size f a p = None ->
      r = inl OverflowError /\ st' = st)
  /\ (forall chunk_size,
        TranslatorModule.calculate_chunk_size f a p = Some chunk_size ->
        exists done E rest,
          query_chunks (Z.to_nat chunk_size) (working (conn st))
          = done ++ rest
          /\ Forall2 (enriched dict_translations) (concat done) E
          /\ working (conn st') = E ++ concat rest
          /\ (done <> [] -> committed (conn st') = working (conn st'))
          /\ (done = [] -> conn st' = conn st)
          /\ match r with inr _ => rest = [] | inl _ => rest <> [] end).
Proof.
  intros Hk. unfold populate_item_gr_column.
  destruct (TranslatorModule.calculate_chunk_size f a p) as [cs|] eqn:Hcs.
  - unfold bind, get. intros E.
    apply translator_chunk_size_pos in Hcs.
    apply (populate_loop _ []) in E; simpl;
      rewrite ?concat_query_chunks by exact Hcs; try assumption; try reflexivity.
    destruct E as [Ht H]. split; [exact Ht|]. split; [discriminate|].
    intros cs' [= <-]. exact H.
  - intros [= <- <-]. split; [apply traced_same; reflexivity|].
    split; [intros _; split; reflexivity | discriminate].
Qed.

End EnrichmentRun.



(** ** Classification *)

Section ClassificationRun.
Variable parse_numeric : str -> option Q.
Variable fit_predict : nat -> list (list Q) -> exn + list nat.

Lemma col_index_lookup name columns i :
  col_index name columns = Some i -> columns !! i = Some name.
Proof.
  revert i. induction columns as [|c rest IH]; intros i; simpl; [discriminate|].
  destruct (String.eqb c name) eqn:E.
  - apply String.eqb_eq in E. subst c. intros [= <-]. reflexivity.
  - destruct (col_index name rest) as [j|]; simpl; [|discriminate].
    intros [= <-]. simpl. apply IH. reflexivity.
Qed.

Lemma cell_at_set_cell_ne name column columns v (r : row) :
  name <> column ->
  cell_at name columns (set_cell column columns v r) = cell_at name columns r.
Proof.
  intros Hne. unfold cell_at, set_cell.
  destruct (col_index name columns) as [i|] eqn:Hi; [|reflexivity].
  destruct (col_index column columns) as [j|] eqn:Hj; [|reflexivity].
  apply list_lookup_insert_ne. intros ->.
  apply col_index_lookup in Hi, Hj. congruence.
Qed.

Lemma where_id_set_category v key (r : row) :
  where_id key (set_cell "category" fastfood_columns v r) = where_id key r.
Proof. eapply where_id_set_cell. reflexivity. Qed.

Lemma touched_same keys (r : row) : touched keys r r.
Proof. split; reflexivity. Qed.

Lemma touched_then key keys (a b c : row) :
  touched [key] a b -> touched keys b c -> touched (key :: keys) a c.
Proof.
  intros [Hn1 Hu1] [Hn2 Hu2]. split.
  - intros name Hne. rewrite Hn2, Hn1 by assumption. reflexivity.
  - intros H. apply Forall_cons in H. destruct H as [Hk Hks].
    assert (b = a) by (apply Hu1; constructor; [exact Hk | constructor]).
    subst b. apply Hu2, Hks.
Qed.

Lemma update_rows_touched v key rows :
  Forall2 (touched [key]) rows (update_rows "category" v key rows).
Proof.
  induction rows as [|r rows IH]; simpl; constructor; [|exact IH].
  destruct (where_id key r) eqn:Hw; [|apply touched_same].
  split.
  - intros name Hne. apply cell_at_set_cell_ne, Hne.
  - intros H. apply Forall_cons in H. destruct H as [H _]. congruence.
Qed.

Lemma Forall2_touched_same keys rows : Forall2 (touched keys) rows rows.
Proof. apply Forall_Forall2_diag, Forall_forall. intros. apply touched_same. Qed.

(** The loop that writes the categories back. *)
Lemma category_loop columns xs (c : Connection) r c' :
  for_each xs
    (fun ir : nat * row =>
       let* category := row_get "category" columns (snd ir) in
       let* id := row_get "id" columns (snd ir) in
       execute_update "category" category id) c
  = (r, c') ->
  committed c' = committed c
  /\ Forall2 (touched (omap (fun ir => cell_at "id" columns (snd ir)) xs))
       (working c) (working c').
Proof.
  revert c. induction xs as [|x xs IH]; intros c.
  - intros [= <- <-]. split; [reflexivity | apply Forall2_touched_same].
  - simpl for_each. unfold bind at 1. unfold bind at 1. unfold row_get at 1.
    destruct (cell_at "category" columns (snd x)) as [category|].
    + unfold ret at 1. unfold bind at 1. unfold row_get at 1.
      destruct (cell_at "id" columns (snd x)) as [id|] eqn:Hid.
      * unfold ret at 1. rewrite execute_update_eq. intros E.
        apply IH in E. destruct E as [Hc Hw]. simpl in Hc, Hw.
        split; [exact Hc|]. simpl. rewrite Hid.
        eapply Forall2_trans; [|apply update_rows_touched|exact Hw].
        intros a b d. apply touched_then.
      * intros [= <- <-]. split; [reflexivity | apply Forall2_touched_same].
    + intros [= <- <-]. split; [reflexivity | apply Forall2_touched_same].
Qed.

Lemma loc_imap_from {A} k i (rows : list A) :
  loc (k + i) (imap (fun j r => (k + j, r)%nat) rows) = rows !! i.
Proof.
  revert k i. induction rows as [|x rows IH]; intros k i; [reflexivity|].
  simpl. destruct i as [|i].
  - rewrite Nat.add_0_r, Nat.eqb_refl. reflexivity.
  - destruct (Nat.eqb_spec (k + 0) (k + S i)) as [E|_]; [lia|].
    change ((x :: rows) !! S i) with (rows !! i).
    rewrite <- (IH (S k) i). replace (k + S i)%nat with (S k + i)%nat by lia.
    f_equal. apply imap_ext. intros j y _. simpl. f_equal. lia.
Qed.

Lemma loc_frame_of columns rows i :
  loc i (df_rows (frame_of columns rows)) = rows !! i.
Proof. apply (loc_imap_from 0 i rows). Qed.

Lemma mapM_loc {S A} (rows : list (nat * A)) idxs (st : S) res st' :
  mapM (fun i => match loc i rows with
                 | Some r => ret (i, r)
                 | None => raise (KeyError "index")
                 end) idxs st = (res, st') ->
  st' = st
  /\ forall kept, res = inr kept ->
       Forall (fun ir => loc (fst ir) rows = Some (snd ir)
                         /\ In (fst ir) idxs) kept.
Proof.
  revert st res st'. induction idxs as [|i idxs IH]; intros st res st'.
  - intros [= <- <-]. split; [reflexivity|]. intros kept [= <-]. constructor.
  - simpl. unfold bind at 1. destruct (loc i rows) as [r|] eqn:Hl.
    + unfold ret at 1. unfold bind at 1.
      destruct (mapM _ idxs st) as [r1 st1] eqn:E1.
      apply IH in E1. destruct E1 as [-> H1].
      destruct r1 as [e|kept1]; intros [= <- <-]; (split; [reflexivity|]);
        [discriminate|].
      intros kept [= <-]. constructor; [split; [exact Hl | left; reflexivity]|].
      eapply Forall_impl; [apply H1; reflexivity|].
      intros ir [H2 H3]. split; [exact H2 | right; exact H3].
    + intros [= <- <-]. split; [reflexivity | discriminate].
Qed.

(** The frame [classify_items] returns holds rows of the table whose
    features are complete, with a category set. *)
Lemma classify_items_spec n_clusters (c : Connection) r c' :
  classify_items parse_numeric fit_predict n_clusters c = (r, c') ->
  c' = c
  /\ forall df, r = inr df ->
       df_columns df = fastfood_columns
       /\ Forall (fun ir =>
                    exists orig v,
                      working c !! fst ir = Some orig
                      /\ vector_complete (feature_vector parse_numeric orig)
                         = true
                      /\ snd ir = set_cell "category" fastfood_columns v orig)
            (df_rows df).
Proof.
  unfold classify_items, read_fastfood. unfold bind at 1. unfold bind at 1.
  unfold get, ret at 1.
  set (rows := df_rows (frame_of fastfood_columns (working c))).
  set (feature_df := List.filter _ _).
  destruct (fit_predict _ _) as [e|clusters].
  - intros [= <- <-]. split; [reflexivity | discriminate].
  - destruct (length clusters =? length feature_df)%nat.
    + unfold bind at 1.
      destruct (mapM _ (map fst feature_df) c) as [r1 c1] eqn:E1.
      apply mapM_loc in E1. destruct E1 as [-> H1].
      destruct r1 as [e|kept]; intros [= <- <-]; (split; [reflexivity|]);
        [discriminate|].
      intros df [= <-]. split; [reflexivity|]. simpl.
      apply Forall_forall. intros ir Hir.
      apply list_elem_of_In, in_map_iff in Hir.
      destruct Hir as [[i orig] [<- Hin]]. simpl.
      specialize (H1 kept eq_refl). rewrite Forall_forall in H1.
      apply list_elem_of_In, H1 in Hin. simpl in Hin.
      destruct Hin as [Hloc Hidx]. unfold rows in Hloc.
      rewrite loc_frame_of in Hloc.
      exists orig. eexists. split; [exact Hloc|]. split; [|reflexivity].
      apply in_map_iff in Hidx. destruct Hidx as [[i' v] [Hi Hfv]].
      simpl in Hi. subst i'. unfold feature_df in Hfv.
      apply List.filter_In in Hfv. destruct Hfv as [Hfv Hcomplete].
      apply in_map_iff in Hfv. destruct Hfv as [[i' orig'] [Heq Hrow]].
      simpl in Heq. injection Heq as -> <-.
      apply list_elem_of_In in Hrow. unfold rows, frame_of in Hrow. simpl in Hrow.
      apply elem_of_lookup_imap_1 in Hrow.
      destruct Hrow as [j [y [[= -> ->] Hj]]].
      rewrite Hloc in Hj. injection Hj as ->. exact Hcomplete.
    + intros [= <- <-]. split; [reflexivity | discriminate].
Qed.

Lemma lookup_map {A B} (f : A -> B) (l : list A) i x :
  l !! i = Some x -> map f l !! i = Some (f x).
Proof.
  revert i. induction l as [|y l IH]; intros [|i]; simpl; try discriminate.
  - intros [= ->]. reflexivity.
  - apply IH.
Qed.

Lemma keyed_lookup rows i (r : row) :
  keyed rows -> rows !! i = Some r -> exists z, row_id r = Some z.
Proof.
  intros [Hs _] Hi. apply (lookup_map row_id) in Hi.
  rewrite Forall_lookup in Hs. destruct (Hs _ _ Hi) as [z Hz].
  exists z. exact Hz.
Qed.

Lemma keyed_unique rows i j (r r' : row) :
  keyed rows -> rows !! i = Some r -> rows !! j = Some r' ->
  row_id r = row_id r' -> i = j.
Proof.
  intros [_ Hn] Hi Hj E.
  apply (lookup_map row_id) in Hi. apply (lookup_map row_id) in Hj.
  rewrite E in Hi. eapply NoDup_lookup; eassumption.
Qed.

Lemma cell_at_id_keyed z (r : row) :
  row_id r = Some z -> cell_at "id" fastfood_columns r = Some (CInt z).
Proof.
  unfold row_id.
  destruct (cell_at "id" fastfood_columns r) as [[| | |]|]; try discriminate.
  intros [= ->]. reflexivity.
Qed.

(** No key of the returned frame is the key of a row with an incomplete
    feature vector. *)
Lemma classified_keys_miss (rows : list row) (classified : list (nat * row))
    i (r : row) :
  keyed rows ->
  Forall (fun ir =>
            exists orig v,
              rows !! fst ir = Some orig
              /\ vector_complete (feature_vector parse_numeric orig) = true
              /\ snd ir = set_cell "category" fastfood_columns v orig)
         classified ->
  rows !! i = Some r ->
  vector_complete (feature_vector parse_numeric r) = false ->
  Forall (fun key => where_id key r = false)
    (omap (fun ir => cell_at "id" fastfood_columns (snd ir)) classified).
Proof.
  intros Hk Hcl Hi Hinc. apply Forall_forall. intros key Hkey.
  apply list_elem_of_In in Hkey.
  assert (Hex : exists ir, In ir classified
              /\ cell_at "id" fastfood_columns (snd ir) = Some key).
  { clear -Hkey. induction classified as [|x xs IH]; simpl in Hkey; [contradiction|].
    destruct (cell_at "id" fastfood_columns (snd x)) as [k|] eqn:E.
    - destruct Hkey as [<-|Hkey].
      + exists x. split; [left; reflexivity | exact E].
      + destruct (IH Hkey) as [ir [H1 H2]]. exists ir. split; [right|]; assumption.
    - destruct (IH Hkey) as [ir [H1 H2]]. exists ir. split; [right|]; assumption. }
  destruct Hex as [ir [Hin Hid]].
  rewrite Forall_forall in Hcl. apply list_elem_of_In, Hcl in Hin.
  destruct Hin as [orig [v [Ho [Hc Hs]]]].
  rewrite Hs, cell_at_set_cell_ne in Hid by discriminate.
  destruct (keyed_lookup rows _ orig Hk Ho) as [z Hz].
  destruct (keyed_lookup rows _ r Hk Hi) as [z' Hz'].
  rewrite (cell_at_id_keyed z orig Hz) in Hid. injection Hid as <-.
  rewrite (where_id_keyed z z' r Hz').
  destruct (Z.eqb_spec z' z) as [->|_]; [|reflexivity].
  assert (i = fst ir) by (eapply keyed_unique; try eassumption; congruence).
  subst i. congruence.
Qed.

End ClassificationRun.

(** C5: after a classification run on a keyed table every row is still in
    its place with every cell other than [category] as before, and a row
    whose feature vector is incomplete (a missing or unparsable feature) is
    as before altogether, so a category is written only to rows with a
    complete feature vector. *)
Theorem classification_frame
    (parse_numeric : str -> option Q)
    (fit_predict : nat -> list (list Q) -> exn + list nat)
    (n_clusters : nat) (c : Connection) (r : exn + unit) (c' : Connection) :
  keyed (working c) ->
  classify_items_and_add_category parse_numeric fit_predict n_clusters c
  = (r, c') ->
  length (working c') = length (working c)
  /\ forall i (row : row),
       working c !! i = Some row ->
       exists row',
         working c' !! i = Some row'
         /\ (forall name, name <> "category"%string ->
               cell_at name fastfood_columns row'
               = cell_at name fastfood_columns row)
         /\ (vector_complete (feature_vector parse_numeric row) = false ->
             row' = row).
Proof.
  intros Hk. unfold classify_items_and_add_category. unfold bind at 1.
  destruct (classify_items _ _ _ c) as [r1 c1] eqn:E1.
  apply classify_items_spec in E1. destruct E1 as [-> Hdf].
  assert (Hsame : forall c0 : Connection, working c0 = working c ->
            length (working c0) = length (working c)
            /\ forall i (row : row),
                 working c !! i = Some row ->
                 exists row',
                   working c0 !! i = Some row'
                   /\ (forall name, name <> "category"%string ->
                         cell_at name fastfood_columns row'
                         = cell_at name fastfood_columns row)
                   /\ (vector_complete (feature_vector parse_numeric row)
                       = false -> row' = row)).
  { intros c0 ->. split; [reflexivity|]. intros i row Hi. exists row.
    repeat split; trivial. }
  destruct r1 as [e|df]; [intros [= <- <-]; apply Hsame; reflexivity|].
  destruct (Hdf df eq_refl) as [Hcols Hrows]. unfold bind at 1.
  destruct (for_each _ _ c) as [r2 c2] eqn:E2.
  apply category_loop in E2. destruct E2 as [_ Hw]. rewrite Hcols in Hw.
  intros E.
  assert (Hc' : working c' = working c2)
    by (destruct r2 as [e|[]]; injection E as <- <-; reflexivity).
  rewrite Hc'. split; [symmetry; eapply Forall2_length, Hw|].
  intros i row Hi.
  destruct (Forall2_lookup_l _ _ _ _ _ Hw Hi) as [row' [Hi' [Hn Hu]]].
  exists row'. split; [exact Hi'|]. split; [exact Hn|].
  intros Hinc. apply Hu.
  eapply classified_keys_miss; eassumption.
Qed.

(** The run on the sample table whose second row lacks its calories. *)
Lemma classification_frame_witness :
  let c := mkConnection sample_table_incomplete sample_table_incomplete in
  let run :=
    classify_items_and_add_category sample_parse_numeric sample_fit_predict
      3 c in
  length (working (snd run)) = length (working c)
  /\ forall i (row : row),
       working c !! i = Some row ->
       exists row',
         working (snd run) !! i = Some row'
         /\ (forall name, name <> "category"%string ->
               cell_at name fastfood_columns row'
               = cell_at name fastfood_columns row)
         /\ (vector_complete (feature_vector sample_parse_numeric row) = false ->
             row' = row).
Proof.
  intros c run.
  apply (classification_frame sample_parse_numeric sample_fit_predict 3 c
           (fst run) (snd run)).
  - unfold keyed. apply (bool_decide_unpack _). vm_compute. exact I.
  - apply surjective_pairing.
Defined.

(** The run on the sample: the first and the third row get a category, the
    second, whose calories are missing, is as it was. *)
Example classification_sample_run :
  let c := mkConnection sample_table_incomplete sample_table_incomplete in
  classify_items_and_add_category sample_parse_numeric sample_fit_predict 3 c
  = (inr tt,
     let rows :=
       [ set_cell "category" fastfood_columns (CStr (of_string "Side"))
           (sample_row 1 "Large Fries" (CInt 510));
         sample_row 2 "Cola" NA;
         set_cell "category" fastfood_columns (CStr (of_string "Dessert"))
           (sample_row 3 "Double Burger" (CInt 750)) ] in
     mkConnection rows rows).
Proof. vm_compute. reflexivity. Qed.

(** The enrichment run on the sample table with chunks of one row: two
    chunks are enriched and committed, the third is as it was. *)
Example enrichment_sample_run :
  let st := mkEnv (mkConnection sample_table sample_table) 0%nat [] in
  let run :=
    populate_item_gr_column two_calls_then_down sample_dict (1 # 2)
      (get_available_memory 100) 100 st in
  fst run = inl (TranslationError 503)
  /\ working (conn (snd run))
     = [ set_cell "item_gr" fastfood_columns
           (CStr (of_string "Large-el Fries-el"))
           (sample_row 1 "Large Fries" (CInt 510));
         set_cell "item_gr" fastfood_columns (CStr (of_string "Kola"))
           (sample_row 2 "Cola" (CInt 140));
         sample_row 3 "Double Burger" (CInt 750) ]
  /\ committed (conn (snd run)) = working (conn (snd run)).
Proof. vm_compute. repeat split. Qed.


(** ** Ingestion *)

Section Ingestion.

Lemma for_each_fails {S A} (xs : list A) (body : A -> M S unit) x :
  In x xs ->
  (forall st, exists e st', body x st = (inl e, st')) ->
  forall st, exists e st', for_each xs body st = (inl e, st').
Proof.
  intros Hx Hfail. induction xs as [|y xs IH]; [contradiction|].
  intros st. simpl. unfold bind.
  destruct (body y st) as [[e|[]] st1] eqn:E.
  - exists e, st1. reflexivity.
  - destruct Hx as [->|Hx].
    + destruct (Hfail st) as [e [st' H]]. congruence.
    + apply IH, Hx.
Qed.

Lemma mapM_fails {S A B} (xs : list A) (f : A -> M S B) x :
  In x xs ->
  (forall st, exists e st', f x st = (inl e, st')) ->
  forall st, exists e st', mapM f xs st = (inl e, st').
Proof.
  intros Hx Hfail. induction xs as [|y xs IH]; [contradiction|].
  intros st. simpl. unfold bind at 1.
  destruct (f y st) as [[e|b] st1] eqn:E.
  - exists e, st1. reflexivity.
  - destruct Hx as [->|Hx].
    + destruct (Hfail st) as [e [st' H]]. congruence.
    + unfold bind. destruct (IH Hx st1) as [e [st' ->]].
      exists e, st'. reflexivity.
Qed.

(** Cleaning the items of a chunk raises when an item is missing. *)
Lemma apply_item_missing {S} columns rows label (r : row) :
  In (label, r) rows ->
  cell_at "item" columns r = Some NA ->
  forall st : S, exists e st',
    apply_item clean_item_cell (mkDataFrame columns rows) st = (inl e, st').
Proof.
  intros Hin Hna st. unfold apply_item, cell_at in *. simpl.
  destruct (col_index "item" columns) as [i|]; [|discriminate].
  unfold bind.
  destruct (mapM_fails rows
              (fun r0 : nat * row =>
                 @clean_item_cell S (default NA (snd r0 !! i)))
              (label, r) Hin) with (st := st) as [e [st' ->]].
  - intros st0. simpl. rewrite Hna. simpl. eexists _, _. reflexivity.
  - exists e, st'. reflexivity.
Qed.

End Ingestion.

(** C9: when the item of a source row is missing, [load_csv_to_db] raises:
    the items are cleaned before the incomplete rows are dropped, and
    cleaning a missing item raises. *)
Theorem missing_item_fails_ingestion
    (csv : DataFrame) (available_memory_gb : Q) (row_bytes : Z)
    (memory_fraction : Q) (c : Connection) (label : nat) (r : row) :
  In (label, r) (df_rows csv) ->
  cell_at "item" (df_columns csv) r = Some NA ->
  exists e c',
    load_csv_to_db csv available_memory_gb row_bytes memory_fraction c
    = (inl e, c').
Proof.
  intros Hin Hna. unfold load_csv_to_db.
  destruct (DataLoader.calculate_chunk_size _ _ _ _) as [cs|];
    [|eexists _, _; reflexivity].
  destruct (Z.ltb_spec cs 1) as [|Hcs]; [eexists _, _; reflexivity|].
  assert (Hc : concat (chunks_of (Z.to_nat cs) (df_rows csv)) = df_rows csv)
    by (apply concat_fetch_chunks; lia).
  rewrite <- Hc in Hin. apply in_concat in Hin.
  destruct Hin as [chunk [Hchunk Hrow]].
  eapply for_each_fails; [exact Hchunk|].
  intros st. unfold bind.
  destruct (apply_item_missing (df_columns csv) chunk label r Hrow Hna st)
    as [e [st' ->]].
  exists e, st'. reflexivity.
Qed.

(** The run on the sample file, whose second row lacks its item. *)
Lemma missing_item_fails_ingestion_witness :
  exists e c',
    load_csv_to_db sample_csv (get_available_memory 1000000) 200 (1 # 2)
      (mkConnection [] [])
    = (inl e, c').
Proof.
  apply (missing_item_fails_ingestion sample_csv
           (get_available_memory 1000000) 200%Z (1 # 2)%Q
           (mkConnection [] []) 1%nat
           [ CStr (of_string "Mcdonalds"); NA; CInt 140 ]).
  - right. left. reflexivity.
  - reflexivity.
Defined.

(** On the sample the exception is the [AttributeError] of the cleaning,
    and nothing has been inserted. *)
Example ingestion_sample_run :
  load_csv_to_db sample_csv (get_available_memory 1000000) 200 (1 # 2)
    (mkConnection [] [])
  = (inl AttributeError, mkConnection [] []).
Proof. vm_compute. reflexivity. Qed.

(** ** Export *)


(** A file already at the default path is replaced. *)
Example export_sample_run :
  let old := mkCsvFile [ "stale" ]%string [ [ CInt 0 ] ] in
  let st :=
    mkExportEnv {[ default_csv_filename := old ]}
      (mkConnection sample_table sample_table) in
  files (snd (export_classification_to_csv default_csv_filename st))
  !! default_csv_filename
  = Some (mkCsvFile [ "item"; "item_gr"; "category" ]%string
            [ [ CStr (of_string "Large Fries"); NA; NA ];
              [ CStr (of_string "Cola"); NA; NA ];
              [ CStr (of_string "Double Burger"); NA; NA ] ]).
Proof. vm_compute. reflexivity. Qed.

(** * Further properties *)

(** ** The form of a cleaned name *)

Section CleanedForm.

Lemma collapsed_spaces b t :
  collapsed b t -> Forall (fun c => isspace c = true -> c = SPACE) t.
Proof.
  revert b. induction t as [|c t IH]; intros b; simpl; [constructor|].
  destruct (isspace c) eqn:Hc.
  - intros [-> [_ H]]. constructor; [reflexivity | eapply IH, H].
  - intros H. constructor; [congruence | eapply IH, H].
Qed.

Lemma collapsed_no_adjacent b t i c d :
  collapsed b t -> t !! i = Some c -> t !! S i = Some d ->
  isspace c = true -> isspace d = false.
Proof.
  revert b i. induction t as [|x t IH]; intros b i; [discriminate|].
  destruct i as [|i]; simpl.
  - intros H [= ->] Hd Hc. rewrite Hc in H. destruct H as [_ [_ H]].
    destruct t as [|y t]; [discriminate|]. simpl in Hd. injection Hd as ->.
    simpl in H. destruct (isspace d); [|reflexivity].
    destruct H as [_ [H _]]. discriminate.
  - intros H. destruct (isspace x).
    + destruct H as [_ [_ H]]. eapply IH, H.
    + eapply IH, H.
Qed.

Lemma rstrip_last x c : last (rstrip x) = Some c -> isspace c = false.
Proof.
  induction x as [|c0 t IH]; [discriminate|].
  change (rstrip (c0 :: t))
    with (match rstrip t with
          | [] => if isspace c0 then [] else [c0]
          | r => c0 :: r
          end).
  destruct (rstrip t) as [|y r].
  - destruct (isspace c0) eqn:Hc; [discriminate|]. intros [= <-]. exact Hc.
  - intros H. apply IH. exact H.
Qed.

Lemma normalize_ends s :
  (forall c, head (normalize s) = Some c -> isspace c = false)
  /\ (forall c, last (normalize s) = Some c -> isspace c = false).
Proof.
  unfold normalize, strip. split.
  - rewrite strip_comm. intros c.
    pose proof (lstrip_head (rstrip (re_sub_ws [SPACE] s))) as H.
    destruct (lstrip _) as [|x r]; [discriminate|]. intros [= <-]. exact H.
  - intros c. apply rstrip_last.
Qed.

Lemma unwanted_false c :
  unwanted c = false -> c <> REGISTERED /\ c <> ASTERISK /\ c <> COMMA.
Proof.
  unfold unwanted, char_eqb. intros H.
  apply orb_false_iff in H. destruct H as [H H3].
  apply orb_false_iff in H. destruct H as [H1 H2].
  apply N.eqb_neq in H1, H2, H3. auto.
Qed.

(** *** What cleaning keeps *)

Lemma filter_kept_WS w : WS w -> List.filter kept_char w = [].
Proof.
  induction 1 as [|c w Hc _ IH]; simpl; [reflexivity|].
  unfold kept_char at 1. rewrite Hc. exact IH.
Qed.

Lemma filter_kept_strip s :
  List.filter kept_char (strip s) = List.filter kept_char s.
Proof.
  destruct (strip_split s) as [w1 [w2 [H1 [H2 E]]]]. rewrite E at 2.
  rewrite !List.filter_app, (filter_kept_WS w1), (filter_kept_WS w2)
    by assumption.
  rewrite app_nil_r. reflexivity.
Qed.

Lemma filter_kept_col b s :
  List.filter kept_char (sub_ws_runs [SPACE] b s) = List.filter kept_char s.
Proof.
  revert b. induction s as [|c t IH]; intros b; simpl; [reflexivity|].
  destruct (isspace c) eqn:Hc.
  - rewrite List.filter_app, IH. unfold kept_char at 3. rewrite Hc. simpl.
    destruct b; reflexivity.
  - simpl. rewrite IH. reflexivity.
Qed.

Lemma filter_kept_remove s :
  List.filter kept_char (remove_unwanted s) = List.filter kept_char s.
Proof.
  rewrite remove_unwanted_filter, filter_filter. apply List.filter_ext.
  intros c. unfold kept_char. destruct (unwanted c), (isspace c); reflexivity.
Qed.

Lemma filter_kept_normalize s :
  List.filter kept_char (normalize s) = List.filter kept_char s.
Proof. unfold normalize, re_sub_ws. rewrite filter_kept_strip. apply filter_kept_col. Qed.

Lemma kept_char_QUOTE : kept_char QUOTE = false.
Proof. reflexivity. Qed.

Lemma startswith_quote s :
  startswith [QUOTE] s = true -> s = QUOTE :: slice_from_1 s.
Proof.
  destruct s as [|c t]; [discriminate|]. simpl. unfold char_eqb.
  destruct (N.eqb_spec QUOTE c) as [<-|]; [|discriminate].
  intros _. unfold slice_from_1. simpl. rewrite drop_0. reflexivity.
Qed.

Lemma endswith_quote s :
  endswith [QUOTE] s = true -> s = slice_to_last s ++ [QUOTE].
Proof.
  unfold endswith, slice_to_last. intros H.
  destruct (rev s) as [|q r] eqn:Hr; [discriminate|]. simpl in H.
  unfold char_eqb in H. destruct (N.eqb_spec QUOTE q) as [<-|]; [|discriminate].
  assert (Hs : s = rev r ++ [QUOTE]).
  { rewrite <- (rev_involutive s), Hr. reflexivity. }
  rewrite Hs at 2 3. rewrite length_app. simpl.
  replace (length (rev r) + 1 - 1)%nat with (length (rev r)) by lia.
  rewrite take_app_length. exact Hs.
Qed.

Lemma filter_kept_leading s :
  List.filter kept_char (strip_leading_quote_and_trim s)
  = List.filter kept_char s.
Proof.
  unfold strip_leading_quote_and_trim.
  destruct (startswith [QUOTE] s) eqn:H; [|reflexivity].
  rewrite filter_kept_strip. apply startswith_quote in H.
  rewrite H at 2. simpl. rewrite ?kept_char_QUOTE. reflexivity.
Qed.

Lemma filter_kept_trailing s :
  List.filter kept_char (strip_trailing_quote_and_trim s)
  = List.filter kept_char s.
Proof.
  unfold strip_trailing_quote_and_trim, has_strippable_trailing_quote.
  destruct (endswith [QUOTE] s) eqn:H; [|reflexivity].
  destruct (negb _); [|reflexivity]. simpl.
  rewrite filter_kept_strip. apply endswith_quote in H.
  rewrite H at 2. rewrite List.filter_app. simpl. rewrite ?kept_char_QUOTE.
  rewrite app_nil_r. reflexivity.
Qed.

End CleanedForm.

(** X1: a cleaned name holds none of the three symbols, its whitespace is
    single blanks (U+0020) only, never two in a row, and it neither starts
    nor ends with whitespace. *)
Theorem clean_item_name_normal_form (s : str) :
  Forall (fun c => c <> REGISTERED /\ c <> ASTERISK /\ c <> COMMA)
    (clean_item_name s)
  /\ Forall (fun c => isspace c = true -> c = SPACE) (clean_item_name s)
  /\ (forall i c d,
        clean_item_name s !! i = Some c ->
        clean_item_name s !! S i = Some d ->
        isspace c = true -> isspace d = false)
  /\ (forall c, head (clean_item_name s) = Some c -> isspace c = false)
  /\ (forall c, last (clean_item_name s) = Some c -> isspace c = false).
Proof.
  split; [|split; [|split]].
  - eapply Forall_impl; [apply clean_item_name_wanted|]. apply unwanted_false.
  - rewrite clean_item_name_unfold.
    eapply collapsed_spaces, collapsed_normalize.
  - rewrite clean_item_name_unfold. intros i c d.
    eapply collapsed_no_adjacent, collapsed_normalize.
  - rewrite clean_item_name_unfold. apply normalize_ends.
Qed.

(** X2: cleaning touches whitespace, quotes and the three symbols only:
    the other characters of the name come out unchanged and in their
    order, and the name never gets longer. *)
Theorem clean_item_name_keeps_text (s : str) :
  List.filter kept_char (clean_item_name s) = List.filter kept_char s
  /\ (length (clean_item_name s) <= length s)%nat.
Proof.
  split.
  - rewrite clean_item_name_unfold, filter_kept_normalize, filter_kept_remove,
      filter_kept_trailing. apply filter_kept_leading.
  - pose proof (length_clean_item_name s).
    pose proof (proj1 (length_trailing (strip_leading_quote_and_trim s))).
    pose proof (proj1 (length_leading s)). lia.
Qed.

(** ** Words *)

Section Words.

Lemma push_word_words w ws :
  Forall (fun c => isspace c = false) w -> Forall is_word ws ->
  Forall is_word (push_word w ws).
Proof.
  intros Hw Hws. destruct w as [|c w]; [exact Hws|].
  constructor; [split; [discriminate | exact Hw] | exact Hws].
Qed.

Lemma split_go_words s :
  Forall (fun c => isspace c = false) (fst (split_go s))
  /\ Forall is_word (snd (split_go s)).
Proof.
  induction s as [|c t [IH1 IH2]]; simpl; [split; constructor|].
  destruct (split_go t) as [w ws]. simpl in *.
  destruct (isspace c) eqn:Hc; simpl.
  - split; [constructor | apply push_word_words; assumption].
  - split; [constructor; assumption | assumption].
Qed.

Lemma split_words s : Forall is_word (split s).
Proof.
  unfold split. pose proof (split_go_words s) as [H1 H2].
  destruct (split_go s) as [w ws]. apply push_word_words; assumption.
Qed.

Lemma split_cons_ws c t : isspace c = true -> split (c :: t) = split t.
Proof.
  intros Hc. unfold split. simpl. destruct (split_go t) as [w ws].
  rewrite Hc. reflexivity.
Qed.

Lemma split_WS w : WS w -> split w = [].
Proof.
  induction 1 as [|c w Hc _ IH]; [reflexivity|].
  rewrite split_cons_ws by assumption. exact IH.
Qed.

Lemma join_cons sep p rest :
  join sep (p :: rest)
  = p ++ match rest with [] => [] | _ => sep ++ join sep rest end.
Proof. destruct rest; simpl; [rewrite app_nil_r|]; reflexivity. Qed.

Lemma join_words_nil ws :
  Forall is_word ws -> join [SPACE] ws = [] -> ws = [].
Proof.
  destruct ws as [|p rest]; [reflexivity|]. intros H E.
  apply Forall_cons in H. destruct H as [[Hp _] _].
  rewrite join_cons in E. destruct p; [congruence | discriminate].
Qed.

Lemma join_words_head ws :
  Forall is_word ws ->
  match join [SPACE] ws with c :: _ => isspace c = false | [] => True end.
Proof.
  destruct ws as [|p rest]; [exact (fun _ => I)|]. intros H.
  apply Forall_cons in H. destruct H as [[Hp Hc] _].
  rewrite join_cons. destruct p as [|c p]; [congruence|].
  apply Forall_cons in Hc. apply Hc.
Qed.

Lemma rstrip_cons_word c x : isspace c = false -> rstrip (c :: x) = c :: rstrip x.
Proof.
  intros Hc.
  change (rstrip (c :: x))
    with (match rstrip x with
          | [] => if isspace c then [] else [c]
          | r => c :: r
          end).
  rewrite Hc. destruct (rstrip x); reflexivity.
Qed.

(** Collapsing and trimming on the right, in terms of the words. *)
Lemma rstrip_col_split t :
  rstrip (sub_ws_runs [SPACE] false t)
  = fst (split_go t)
    ++ match snd (split_go t) with
       | [] => []
       | ws => SPACE :: join [SPACE] ws
       end
  /\ rstrip (sub_ws_runs [SPACE] true t) = join [SPACE] (split t).
Proof.
  induction t as [|c t [IHA IHB]]; [split; reflexivity|].
  pose proof (split_words t) as Hwords.
  unfold split in *. cbn [split_go sub_ws_runs].
  destruct (split_go t) as [w ws]. cbn [fst snd] in *.
  destruct (isspace c) eqn:Hc; cbn [fst snd app].
  - split; [|exact IHB].
    change (rstrip (SPACE :: sub_ws_runs [SPACE] true t))
      with (match rstrip (sub_ws_runs [SPACE] true t) with
            | [] => if isspace SPACE then [] else [SPACE]
            | r => SPACE :: r
            end).
    rewrite IHB. destruct (push_word w ws) as [|p rest] eqn:Hp; [reflexivity|].
    destruct (join [SPACE] (p :: rest)) eqn:Hj; [|reflexivity].
    apply join_words_nil in Hj; [discriminate | exact Hwords].
  - rewrite !rstrip_cons_word by assumption. rewrite IHA. split; [reflexivity|].
    cbn [push_word]. rewrite join_cons. destruct ws; reflexivity.
Qed.

(** [' '.join(s.split())] is [s] with its whitespace collapsed and
    trimmed. *)
Lemma join_split s : join [SPACE] (split s) = normalize s.
Proof.
  unfold normalize, re_sub_ws, strip.
  rewrite lstrip_col, strip_comm, (proj2 (rstrip_col_split s)).
  pose proof (join_words_head (split s) (split_words s)) as H.
  destruct (join [SPACE] (split s)) as [|c r]; [reflexivity|].
  symmetry. apply lstrip_no_lead, H.
Qed.

End Words.

Section WordByWord.
Variable World : Type.
Variable translate_word : str -> str -> World -> (exn + str) * World.

Lemma google_translate_blank item dest (st : Env World) :
  WS item ->
  google_translate_word_by_word translate_word item dest st = (inr [], st).
Proof.
  intros H. unfold google_translate_word_by_word.
  rewrite (split_WS item H). reflexivity.
Qed.

Lemma google_translate_words item dest (st : Env World) r st' new :
  google_translate_word_by_word translate_word item dest st = (r, st') ->
  calls st' = calls st ++ new ->
  Forall (fun c => is_word (call_word c)) new.
Proof.
  intros E Hn. apply google_translate_word_by_word_calls in E.
  destruct E as [_ [new' [Hn' [_ Hr]]]].
  rewrite Hn' in Hn. apply app_inv_head in Hn. subst new'.
  assert (Hp : map call_word new `prefix_of` split item).
  { destruct r as [e|text]; [apply Hr|].
    destruct Hr as [-> _]. reflexivity. }
  destruct Hp as [k Hk]. pose proof (split_words item) as Hw.
  rewrite Hk in Hw. apply Forall_app in Hw. destruct Hw as [Hw _].
  clear -Hw. induction new as [|c new IH]; [constructor|].
  simpl in Hw. apply Forall_cons in Hw. destruct Hw as [Hc Hw].
  constructor; [exact Hc | apply IH, Hw].
Qed.

Lemma mapM_echo dest words (st : Env World) :
  (forall word dest world, fst (translate_word word dest world) = inr word) ->
  fst (mapM (fun word => external_translate translate_word word dest)
         words st) = inr words.
Proof.
  intros Hecho. revert st. induction words as [|w ws IH]; intros st;
    [reflexivity|].
  simpl. unfold bind at 1. unfold external_translate at 1.
  specialize (Hecho w dest (world st)).
  destruct (translate_word w dest (world st)) as [r0 w']. simpl in Hecho.
  subst r0. unfold bind at 1.
  match goal with |- context [mapM ?f ws ?s] =>
    specialize (IH s); destruct (mapM f ws s) as [r1 st1] end.
  simpl in IH. subst r1. reflexivity.
Qed.

End WordByWord.

(** X3: [google_translate_word_by_word] sends only words to the
    collaborator, none empty and none with whitespace in it, and for an
    item that is empty or all whitespace it makes no call and returns the
    empty string. *)
Theorem google_translate_sends_words
    (World : Type) (translate_word : str -> str -> World -> (exn + str) * World)
    (item dest : str) (st : Env World) :
  (forall r st' new,
     google_translate_word_by_word translate_word item dest st = (r, st') ->
     calls st' = calls st ++ new ->
     Forall (fun c => call_word c <> []
                      /\ Forall (fun x => isspace x = false) (call_word c))
       new)
  /\ (Forall (fun c => isspace c = true) item ->
      google_translate_word_by_word translate_word item dest st
      = (inr [], st)).
Proof.
  split.
  - intros r st' new. apply google_translate_words.
  - apply google_translate_blank.
Qed.

(** X4: the word-by-word translation keeps the words and not the spacing:
    with a collaborator that returns every word as it is, an item comes
    back with each run of whitespace collapsed to one blank and the ends
    trimmed, so a cleaned name comes back as it is. *)
Theorem google_translate_echo
    (World : Type) (translate_word : str -> str -> World -> (exn + str) * World)
    (dest : str) (st : Env World) :
  (forall word dest world, fst (translate_word word dest world) = inr word) ->
  (forall item,
     fst (google_translate_word_by_word translate_word item dest st)
     = inr (strip (re_sub_ws [SPACE] item)))
  /\ (forall s,
        fst (google_translate_word_by_word translate_word
               (clean_item_name s) dest st)
        = inr (clean_item_name s)).
Proof.
  intros Hecho.
  assert (H : forall item,
            fst (google_translate_word_by_word translate_word item dest st)
            = inr (normalize item)).
  { intros item. unfold google_translate_word_by_word, bind.
    pose proof (mapM_echo World translate_word dest (split item) st Hecho) as E.
    destruct (mapM _ (split item) st) as [r1 st1]. simpl in E. subst r1.
    simpl. rewrite join_split. reflexivity. }
  split; [exact H|]. intros s. rewrite H, clean_item_name_normal. reflexivity.
Qed.

(** The echo collaborator on a name with a tab and doubled blanks. *)
Lemma google_translate_echo_witness :
  let st := mkEnv (mkConnection [] []) 0%nat [] in
  fst (google_translate_word_by_word echo_collaborator
         (of_string "  Large" ++ 9%N :: of_string "Fries  ") (of_string "el") st)
  = inr (of_string "Large Fries").
Proof.
  intros st.
  apply (proj1 (google_translate_echo nat echo_collaborator (of_string "el") st
                  (fun word dest world => eq_refl))
           (of_string "  Large" ++ 9%N :: of_string "Fries  ")).
Defined.

(** ** The memory budget of a chunk *)

Section ChunkBudget.






End ChunkBudget.







(** ** Inserting rows *)

Section Inserting.

Lemma insert_row_eq columns r (c : Connection) :
  insert_row columns r c
  = if existsb (where_id (fresh_id_cell columns r (working c))) (working c)
    then (inl IntegrityError, c)
    else (inr tt,
          mkConnection (committed c)
            (working c
             ++ [table_row columns (fresh_id_cell columns r (working c)) r])).
Proof.
  unfold insert_row, bind, get, fresh_id_cell, table_row.
  destruct (existsb _ (working c)); reflexivity.
Qed.

Lemma fresh_id_cell_int columns r rows :
  exists z, fresh_id_cell columns r rows = CInt z.
Proof.
  unfold fresh_id_cell.
  destruct (cell_at "id" columns r) as [[| | |]|]; eexists; reflexivity.
Qed.

Lemma row_id_table_row columns z r :
  row_id (table_row columns (CInt z) r) = Some z.
Proof. reflexivity. Qed.

Lemma keyed_snoc rows (r : row) z :
  keyed rows -> row_id r = Some z ->
  existsb (where_id (CInt z)) rows = false ->
  keyed (rows ++ [r]).
Proof.
  intros [Hs Hn] Hr Hex. unfold keyed. rewrite map_app. simpl. rewrite Hr.
  split.
  - apply Forall_app. split; [exact Hs|]. constructor; [eexists; reflexivity|].
    constructor.
  - apply NoDup_app. split; [exact Hn|]. split; [|apply NoDup_singleton].
    intros x Hx Hx'. apply list_elem_of_singleton in Hx'. subst x.
    apply list_elem_of_In, in_map_iff in Hx. destruct Hx as [r' [Hr' Hin]].
    assert (Hw : where_id (CInt z) r' = false).
    { destruct (where_id (CInt z) r') eqn:E; [|reflexivity].
      assert (existsb (where_id (CInt z)) rows = true)
        by (apply existsb_exists; exists r'; split; assumption).
      congruence. }
    rewrite (where_id_keyed z z r' Hr'), Z.eqb_refl in Hw. discriminate.
Qed.

(** The rows of a chunk, inserted one by one. *)
Lemma insert_rows_spec columns (rows : list (nat * row)) (c : Connection)
    res c' :
  keyed (working c) ->
  for_each rows (fun r => insert_row columns (snd r)) c = (res, c') ->
  committed c' = committed c
  /\ keyed (working c')
  /\ exists news,
       working c' = working c ++ news
       /\ (res = inr tt ->
           Forall2 (fun src r =>
                      exists z, r = table_row columns (CInt z) (snd src))
             rows news).
Proof.
  revert c. induction rows as [|x rows IH]; intros c Hk.
  - intros [= <- <-]. split; [reflexivity|]. split; [exact Hk|].
    exists []. rewrite app_nil_r. split; [reflexivity|]. constructor.
  - simpl for_each. unfold bind at 1. rewrite insert_row_eq.
    destruct (fresh_id_cell_int columns (snd x) (working c)) as [z Hz].
    rewrite Hz. destruct (existsb _ (working c)) eqn:Hex.
    + intros [= <- <-]. split; [reflexivity|]. split; [exact Hk|].
      exists []. rewrite app_nil_r. split; [reflexivity | discriminate].
    + intros E. apply IH in E.
      * destruct E as [Hc [Hk' [news [Hw Hr]]]]. simpl in Hc, Hw.
        split; [exact Hc|]. split; [exact Hk'|].
        exists (table_row columns (CInt z) (snd x) :: news).
        split; [rewrite Hw, <- app_assoc; reflexivity|].
        intros Hres. constructor; [exists z; reflexivity | apply Hr, Hres].
      * simpl. eapply keyed_snoc; [exact Hk | apply row_id_table_row | exact Hex].
Qed.

(** A chunk is inserted as a whole or not at all. *)
Lemma insert_chunk_spec (chunk : DataFrame) (c : Connection) res c' :
  committed c = working c -> keyed (working c) ->
  _insert_chunk chunk c = (res, c') ->
  committed c' = working c'
  /\ keyed (working c')
  /\ match res with
     | inr _ =>
         exists news,
           working c' = working c ++ news
           /\ Forall2 (fun src r =>
                         exists z,
                           r = table_row (df_columns chunk) (CInt z) (snd src))
                (df_rows chunk) news
     | inl _ => c' = c
     end.
Proof.
  intros Hcw Hk. unfold _insert_chunk.
  destruct (forallb _ (df_columns chunk)).
  - destruct (for_each _ _ c) as [[e|[]] c1] eqn:E;
      apply insert_rows_spec in E; try exact Hk;
      destruct E as [Hc [Hk1 [news [Hw Hr]]]].
    + intros [= <- <-]. simpl. rewrite Hc, Hcw.
      split; [reflexivity|]. split; [exact Hk|].
      destruct c; simpl in *; subst; reflexivity.
    + unfold commit, modify. intros [= <- <-]. simpl.
      split; [reflexivity|]. split; [exact Hk1|].
      exists news. split; [exact Hw | apply Hr; reflexivity].
  - intros [= <- <-]. split; [exact Hcw|]. split; [exact Hk | reflexivity].
Qed.

End Inserting.

(** ** Ingestion as a whole *)

Section IngestionRun.

Lemma mapM_clean {S} i (rows : list (nat * row)) (st : S) res st' :
  mapM (fun r => clean_item_cell (default NA (snd r !! i))) rows st
  = (res, st') ->
  st' = st
  /\ forall items, res = inr items ->
       Forall2 (fun r c =>
                  exists s, default NA (snd r !! i) = CStr s
                            /\ c = CStr (clean_item_name s))
         rows items.
Proof.
  revert st res st'. induction rows as [|r rows IH]; intros st res st'.
  - intros [= <- <-]. split; [reflexivity|]. intros items [= <-]. constructor.
  - simpl. unfold bind at 1.
    destruct (default NA (snd r !! i)) as [| | |s] eqn:Hc; simpl;
      try (intros [= <- <-]; split; [reflexivity | discriminate]).
    unfold ret at 1. unfold bind at 1.
    destruct (mapM _ rows st) as [r1 st1] eqn:E1.
    apply IH in E1. destruct E1 as [-> H1].
    destruct r1 as [e|items]; intros [= <- <-]; (split; [reflexivity|]);
      [discriminate|].
    intros items' [= <-]. constructor; [|apply H1; reflexivity].
    exists s. split; [exact Hc | reflexivity].
Qed.

Lemma apply_item_spec {S} columns (rows : list (nat * row)) (st : S) res st' :
  apply_item clean_item_cell (mkDataFrame columns rows) st = (res, st') ->
  st' = st
  /\ forall df, res = inr df ->
       exists i,
         col_index "item" columns = Some i
         /\ df_columns df = columns
         /\ Forall2 (cleaned i) rows (df_rows df).
Proof.
  unfold apply_item. simpl.
  destruct (col_index "item" columns) as [i|];
    [|intros [= <- <-]; split; [reflexivity | discriminate]].
  unfold bind. destruct (mapM _ rows st) as [r1 st1] eqn:E1.
  apply mapM_clean in E1. destruct E1 as [-> H1].
  destruct r1 as [e|items]; intros [= <- <-]; (split; [reflexivity|]);
    [discriminate|].
  intros df [= <-]. exists i. split; [reflexivity|]. split; [reflexivity|].
  simpl. specialize (H1 items eq_refl). clear -H1.
  induction H1 as [|r c rows items [s [Hs ->]] _ IH]; simpl; constructor;
    [|exact IH].
  split; [reflexivity|]. exists s. split; [exact Hs | reflexivity].
Qed.

Lemma forallb_insert_same {A} (f : A -> bool) (l : list A) i x y :
  l !! i = Some y -> f x = f y -> forallb f (<[i := x]> l) = forallb f l.
Proof.
  revert i. induction l as [|z l IH]; intros [|i]; simpl; try discriminate.
  - intros [= ->] ->. reflexivity.
  - intros Hi Hf. rewrite (IH i Hi Hf). reflexivity.
Qed.

Lemma cleaned_complete i src dst :
  cleaned i src dst -> row_complete dst = row_complete src.
Proof.
  intros [_ [s [Hs Hd]]]. unfold row_complete. rewrite Hd.
  destruct (snd src !! i) as [y|] eqn:Hi; simpl in Hs; [|discriminate].
  subst y. eapply forallb_insert_same; [exact Hi | reflexivity].
Qed.

Lemma cleaned_filter i rows rows' :
  Forall2 (cleaned i) rows rows' ->
  Forall2 (cleaned i) (List.filter row_complete rows)
    (List.filter row_complete rows').
Proof.
  induction 1 as [|src dst rows rows' H _ IH]; simpl; [constructor|].
  rewrite (cleaned_complete i src dst H).
  destruct (row_complete src); [constructor; assumption | exact IH].
Qed.

Lemma col_index_elem name columns :
  In name columns -> exists i, col_index name columns = Some i.
Proof.
  induction columns as [|c rest IH]; [contradiction|]. simpl.
  destruct (String.eqb c name) eqn:E; [eexists; reflexivity|].
  intros [->|H]; [rewrite String.eqb_refl in E; discriminate|].
  destruct (IH H) as [i ->]. eexists. reflexivity.
Qed.

Lemma inserted_table_row columns z (src : nat * row) :
  inserted columns src (table_row columns (CInt z) (snd src)).
Proof.
  split; [exists z; reflexivity|]. split; [apply length_map|].
  intros name Hin Hne. unfold cell_at, table_row.
  destruct (col_index_elem name fastfood_columns Hin) as [i Hi]. rewrite Hi.
  apply col_index_lookup in Hi.
  erewrite lookup_map by exact Hi.
  destruct (String.eqb_spec name "id"); [contradiction | reflexivity].
Qed.

Lemma ingested_rows columns i rows rows' news :
  Forall2 (cleaned i) rows rows' ->
  Forall2 (fun src r =>
             exists z, r = table_row columns (CInt z) (snd src))
    (List.filter row_complete rows') news ->
  Forall2 (ingested columns i) (List.filter row_complete rows) news.
Proof.
  intros Hc Hn. apply cleaned_filter in Hc.
  eapply Forall2_trans; [|exact Hc|exact Hn].
  intros src dst r H [z ->]. exists dst. split; [exact H|].
  apply inserted_table_row.
Qed.

(** The loop over the chunks of the source. *)
Lemma load_loop columns (chunks : list (list (nat * row))) (c : Connection)
    res c' :
  committed c = working c -> keyed (working c) ->
  for_each chunks
    (fun rows =>
       let chunk := mkDataFrame columns rows in
       let* chunk := apply_item clean_item_cell chunk in
       let chunk_cleaned := drop_nulls chunk in
       _insert_chunk chunk_cleaned) c = (res, c') ->
  committed c' = working c'
  /\ keyed (working c')
  /\ exists done rest news,
       chunks = done ++ rest
       /\ working c' = working c ++ news
       /\ (forall i, col_index "item" columns = Some i ->
             Forall2 (ingested columns i)
               (List.filter row_complete (concat done)) news)
       /\ (col_index "item" columns = None -> news = [])
       /\ match res with inr _ => rest = [] | inl _ => rest <> [] end.
Proof.
  revert c. induction chunks as [|chunk chunks IH]; intros c Hcw Hk.
  - intros [= <- <-]. split; [exact Hcw|]. split; [exact Hk|].
    exists [], [], []. rewrite !app_nil_r. repeat split; constructor.
  - simpl for_each. unfold bind at 1. unfold bind at 1.
    assert (Hstop : forall e,
      committed c = working c /\ keyed (working c)
      /\ exists done rest news,
           chunk :: chunks = done ++ rest
           /\ working c = working c ++ news
           /\ (forall i, col_index "item" columns = Some i ->
                 Forall2 (ingested columns i)
                   (List.filter row_complete (concat done)) news)
           /\ (col_index "item" columns = None -> news = [])
           /\ match @inl exn unit e with
              | inr _ => rest = []
              | inl _ => rest <> []
              end).
    { intros e. split; [exact Hcw|]. split; [exact Hk|].
      exists [], (chunk :: chunks), []. rewrite app_nil_r.
      repeat split; try constructor. discriminate. }
    destruct (apply_item _ _ c) as [r1 c1] eqn:E1.
    apply apply_item_spec in E1. destruct E1 as [-> Hdf].
    destruct r1 as [e|df]; [intros [= <- <-]; apply (Hstop e)|].
    destruct (Hdf df eq_refl) as [i [Hi [Hcols Hrows]]].
    destruct (_insert_chunk (drop_nulls df) c) as [r2 c2] eqn:E2.
    apply insert_chunk_spec in E2; [|exact Hcw|exact Hk].
    destruct E2 as [Hcw2 [Hk2 Hr2]].
    destruct r2 as [e|[]]; [rewrite Hr2; intros [= <- <-]; apply (Hstop e)|].
    destruct Hr2 as [news1 [Hw1 Hn1]]. simpl in Hn1. rewrite Hcols in Hn1.
    intros E. apply IH in E; [|exact Hcw2|exact Hk2].
    destruct E as [Hcw' [Hk' [done [rest [news [-> [Hw' [Hing [Hnone Hres]]]]]]]]].
    split; [exact Hcw'|]. split; [exact Hk'|].
    exists (chunk :: done), rest, (news1 ++ news).
    split; [reflexivity|].
    split; [rewrite Hw', Hw1, <- app_assoc; reflexivity|].
    split; [|split; [congruence | exact Hres]].
    intros i' Hi'. assert (i' = i) by congruence. subst i'.
    simpl concat. rewrite List.filter_app. apply Forall2_app.
    + eapply ingested_rows; eassumption.
    + apply Hing, Hi.
Qed.

(** What a run of the ingestion has done, whatever its outcome. *)
Lemma load_appends
    (csv : DataFrame) (available_memory_gb : Q) (row_bytes : Z)
    (memory_fraction : Q) (c : Connection) (res : exn + unit)
    (c' : Connection) :
  committed c = working c -> keyed (working c) ->
  load_csv_to_db csv available_memory_gb row_bytes memory_fraction c
  = (res, c') ->
  committed c' = working c'
  /\ keyed (working c')
  /\ exists loaded remaining news,
       df_rows csv = loaded ++ remaining
       /\ working c' = working c ++ news
       /\ (forall i, col_index "item" (df_columns csv) = Some i ->
             Forall2 (ingested (df_columns csv) i)
               (List.filter row_complete loaded) news)
       /\ (col_index "item" (df_columns csv) = None -> news = [])
       /\ (res = inr tt -> remaining = []).
Proof.
  intros Hcw Hk. unfold load_csv_to_db.
  assert (Hnone : forall e,
    committed c = working c /\ keyed (working c)
    /\ exists loaded remaining news,
         df_rows csv = loaded ++ remaining
         /\ working c = working c ++ news
         /\ (forall i, col_index "item" (df_columns csv) = Some i ->
               Forall2 (ingested (df_columns csv) i)
                 (List.filter row_complete loaded) news)
         /\ (col_index "item" (df_columns csv) = None -> news = [])
         /\ (@inl exn unit e = inr tt -> remaining = [])).
  { intros e. split; [exact Hcw|]. split; [exact Hk|].
    exists [], (df_rows csv), []. rewrite app_nil_r.
    repeat split; try constructor. discriminate. }
  destruct (DataLoader.calculate_chunk_size _ _ _ _) as [cs|];
    [|intros [= <- <-]; apply Hnone].
  destruct (Z.ltb_spec cs 1) as [|Hcs]; [intros [= <- <-]; apply Hnone|].
  intros E. apply load_loop in E; [|exact Hcw|exact Hk].
  destruct E as [Hcw' [Hk' [done [rest [news [Hch [Hw [Hing [Hno Hres]]]]]]]]].
  split; [exact Hcw'|]. split; [exact Hk'|].
  exists (concat done), (concat rest), news.
  split.
  { rewrite <- concat_app, <- Hch. symmetry.
    apply concat_fetch_chunks; lia. }
  split; [exact Hw|]. split; [exact Hing|]. split; [exact Hno|].
  intros ->. rewrite Hres. reflexivity.
Qed.

End IngestionRun.



(** ** Ingestion of a well-formed source *)

Section IngestionSucceeds.

Lemma row_id_le_max z (rows : list row) :
  In (Some z) (map row_id rows) ->
  (z <= fold_right Z.max 0 (omap row_id rows))%Z.
Proof.
  induction rows as [|r rows IH]; simpl; [contradiction|].
  destruct (row_id r) as [z'|] eqn:E.
  - simpl. intros [[= ->]|H]; [apply Z.le_max_l|].
    etransitivity; [exact (IH H) | apply Z.le_max_r].
  - intros [|H]; [discriminate|]. exact (IH H).
Qed.

Lemma next_rowid_fresh (rows : list row) :
  keyed rows ->
  existsb (where_id (CInt (next_rowid rows))) rows = false.
Proof.
  intros [Hs _]. destruct (existsb _ rows) eqn:E; [|reflexivity].
  apply existsb_exists in E. destruct E as [r [Hin Hw]].
  assert (Hr : is_Some (row_id r)).
  { rewrite Forall_forall in Hs. apply Hs, list_elem_of_In, in_map, Hin. }
  destruct Hr as [z Hr].
  rewrite (where_id_keyed _ z r Hr) in Hw. apply Z.eqb_eq in Hw.
  assert (Hz : (z <= fold_right Z.max 0 (omap row_id rows))%Z).
  { apply row_id_le_max. rewrite <- Hr. apply in_map. exact Hin. }
  unfold next_rowid in Hw. lia.
Qed.

Lemma col_index_absent name columns :
  ~ In name columns -> col_index name columns = None.
Proof.
  induction columns as [|c rest IH]; [reflexivity|]. simpl. intros H.
  destruct (String.eqb_spec c name) as [->|_]; [tauto|].
  rewrite IH by tauto. reflexivity.
Qed.

Lemma insert_rows_ok columns (rows : list (nat * row)) (c : Connection) :
  keyed (working c) -> ~ In "id"%string columns ->
  exists c', for_each rows (fun r => insert_row columns (snd r)) c
             = (inr tt, c').
Proof.
  intros Hk Hid. revert c Hk.
  induction rows as [|x rows IH]; intros c Hk; [eexists; reflexivity|].
  simpl for_each. unfold bind at 1. rewrite insert_row_eq.
  unfold fresh_id_cell, cell_at. rewrite (col_index_absent _ _ Hid).
  rewrite (next_rowid_fresh _ Hk). apply IH. simpl.
  eapply keyed_snoc; [exact Hk | apply row_id_table_row
                     | apply next_rowid_fresh, Hk].
Qed.

Lemma known_columns columns :
  Forall (fun name => In name fastfood_columns) columns ->
  forallb (fun c => existsb (String.eqb c) fastfood_columns) columns = true.
Proof.
  intros H. apply forallb_forall. intros name Hin.
  apply existsb_exists. exists name. split; [|apply String.eqb_refl].
  rewrite Forall_forall in H. apply H, list_elem_of_In, Hin.
Qed.

Lemma insert_chunk_ok (chunk : DataFrame) (c : Connection) :
  keyed (working c) ->
  Forall (fun name => In name fastfood_columns) (df_columns chunk) ->
  ~ In "id"%string (df_columns chunk) ->
  exists c', _insert_chunk chunk c = (inr tt, c').
Proof.
  intros Hk Hcols Hid. unfold _insert_chunk.
  rewrite (known_columns _ Hcols).
  destruct (insert_rows_ok (df_columns chunk) (df_rows chunk) c Hk Hid)
    as [c1 ->].
  eexists. reflexivity.
Qed.

Lemma mapM_clean_ok {S} i (rows : list (nat * row)) (st : S) :
  Forall (fun r => exists s, default NA (snd r !! i) = CStr s) rows ->
  exists items,
    mapM (fun r => clean_item_cell (default NA (snd r !! i))) rows st
    = (inr items, st).
Proof.
  induction 1 as [|r rows [s Hs] _ [items IH]]; [eexists; reflexivity|].
  simpl. unfold bind at 1. rewrite Hs. simpl. unfold ret at 1.
  unfold bind at 1. rewrite IH. eexists. reflexivity.
Qed.

Lemma apply_item_ok {S} columns i (rows : list (nat * row)) (st : S) :
  col_index "item" columns = Some i ->
  Forall (fun r => exists s, default NA (snd r !! i) = CStr s) rows ->
  exists df,
    apply_item clean_item_cell (mkDataFrame columns rows) st = (inr df, st).
Proof.
  intros Hi Hrows. unfold apply_item. simpl. rewrite Hi. unfold bind.
  destruct (mapM_clean_ok i rows st Hrows) as [items ->].
  eexists. reflexivity.
Qed.

Lemma load_loop_ok columns i (chunks : list (list (nat * row)))
    (c : Connection) :
  committed c = working c -> keyed (working c) ->
  Forall (fun name => In name fastfood_columns) columns ->
  ~ In "id"%string columns ->
  col_index "item" columns = Some i ->
  Forall (Forall (fun r => exists s, default NA (snd r !! i) = CStr s))
    chunks ->
  exists c',
    for_each chunks
      (fun rows =>
         let chunk := mkDataFrame columns rows in
         let* chunk := apply_item clean_item_cell chunk in
         let chunk_cleaned := drop_nulls chunk in
         _insert_chunk chunk_cleaned) c = (inr tt, c').
Proof.
  intros Hcw Hk Hcols Hid Hi Hchunks. revert c Hcw Hk.
  induction Hchunks as [|chunk chunks Hchunk _ IH]; intros c Hcw Hk;
    [eexists; reflexivity|].
  simpl for_each. unfold bind at 1. unfold bind at 1.
  destruct (apply_item_ok columns i chunk c Hi Hchunk) as [df Hdf].
  rewrite Hdf.
  apply apply_item_spec in Hdf. destruct Hdf as [_ Hdf].
  destruct (Hdf df eq_refl) as [i' [_ [Hc _]]].
  destruct (insert_chunk_ok (drop_nulls df) c Hk) as [c1 Hc1];
    [simpl; rewrite Hc; exact Hcols | simpl; rewrite Hc; exact Hid|].
  rewrite Hc1. apply insert_chunk_spec in Hc1; [|exact Hcw|exact Hk].
  destruct Hc1 as [Hcw1 [Hk1 _]]. apply IH; assumption.
Qed.

(** A well-formed source is ingested as a whole. *)
Lemma load_returns
    (csv : DataFrame) (available_memory_gb : Q) (row_bytes : Z)
    (memory_fraction : Q) (chunk_size : Z) (i : nat) (c : Connection) :
  committed c = working c -> keyed (working c) ->
  Forall (fun name => In name fastfood_columns) (df_columns csv) ->
  ~ In "id"%string (df_columns csv) ->
  col_index "item" (df_columns csv) = Some i ->
  Forall (fun r => exists s, default NA (snd r !! i) = CStr s)
    (df_rows csv) ->
  DataLoader.calculate_chunk_size available_memory_gb row_bytes
    (Z.of_nat (length (df_rows csv))) memory_fraction = Some chunk_size ->
  (1 <= chunk_size)%Z ->
  exists c' news,
    load_csv_to_db csv available_memory_gb row_bytes memory_fraction c
    = (inr tt, c')
    /\ working c' = working c ++ news
    /\ committed c' = working c'
    /\ Forall2 (ingested (df_columns csv) i)
         (List.filter row_complete (df_rows csv)) news.
Proof.
  intros Hcw Hk Hcols Hid Hi Hrows Hcs Hone. unfold load_csv_to_db.
  rewrite Hcs. destruct (Z.ltb_spec chunk_size 1) as [|_]; [lia|].
  assert (Hconcat : concat (chunks_of (Z.to_nat chunk_size) (df_rows csv))
                    = df_rows csv)
    by (apply concat_fetch_chunks; lia).
  destruct (load_loop_ok (df_columns csv) i
              (chunks_of (Z.to_nat chunk_size) (df_rows csv)) c
              Hcw Hk Hcols Hid Hi) as [c' Hrun].
  { apply Forall_concat. rewrite Hconcat. exact Hrows. }
  pose proof Hrun as Hspec. apply load_loop in Hspec; [|exact Hcw|exact Hk].
  destruct Hspec as [Hcw' [_ [done [rest [news [Hch [Hw [Hing [_ Hrest]]]]]]]]].
  subst rest. rewrite app_nil_r in Hch. rewrite Hch in Hconcat.
  exists c', news. split; [exact Hrun|]. split; [exact Hw|].
  split; [exact Hcw'|]. rewrite <- Hconcat. apply Hing, Hi.
Qed.

End IngestionSucceeds.

(** X9: on a source whose columns are columns of the table other than
    [id], with a string in every item and a chunk size of at least one
    row, [load_csv_to_db] returns: into a table that satisfies the key
    constraint with nothing uncommitted, it appends one row for each source
    row without a missing value, in the order of the source, with the item
    cleaned, and commits them. *)
Theorem load_csv_to_db_succeeds
    (csv : DataFrame) (available_memory_gb : Q) (row_bytes : Z)
    (memory_fraction : Q) (chunk_size : Z) (i : nat) (c : Connection) :
  committed c = working c -> keyed (working c) ->
  Forall (fun name => In name fastfood_columns) (df_columns csv) ->
  ~ In "id"%string (df_columns csv) ->
  col_index "item" (df_columns csv) = Some i ->
  Forall (fun r => exists s, default NA (snd r !! i) = CStr s)
    (df_rows csv) ->
  DataLoader.calculate_chunk_size available_memory_gb row_bytes
    (Z.of_nat (length (df_rows csv))) memory_fraction = Some chunk_size ->
  (1 <= chunk_size)%Z ->
  exists c' news,
    load_csv_to_db csv available_memory_gb row_bytes memory_fraction c
    = (inr tt, c')
    /\ working c' = working c ++ news
    /\ committed c' = working c'
    /\ Forall2 (ingested (df_columns csv) i)
         (List.filter row_complete (df_rows csv)) news.
Proof.
  intros. eapply load_returns; eassumption.
Qed.

(** The sample file read in chunks of two rows into an empty table. *)
Lemma load_csv_to_db_succeeds_witness :
  exists c' news,
    load_csv_to_db sample_csv_items (get_available_memory 900) 300 (3 # 4)
      (mkConnection [] [])
    = (inr tt, c')
    /\ working c' = [] ++ news
    /\ committed c' = working c'
    /\ Forall2 (ingested (df_columns sample_csv_items) 1)
         (List.filter row_complete (df_rows sample_csv_items)) news.
Proof.
  apply (load_csv_to_db_succeeds sample_csv_items (get_available_memory 900)
           300%Z (3 # 4)%Q 2%Z 1%nat (mkConnection [] []));
    [ reflexivity
    | apply (bool_decide_unpack _); vm_compute; exact I
    | repeat constructor; vm_compute; tauto
    | vm_compute; intuition discriminate
    | reflexivity
    | repeat constructor; eexists; reflexivity
    | vm_compute; reflexivity
    | lia ].
Defined.

(** ** Enrichment as a whole *)

Section EnrichmentFrame.
Variable World : Type.
Variable translate_word : str -> str -> World -> (exn + str) * World.
Variable dict_translations : gmap str str.

Lemma query_chunks_nonempty k (rows : list row) : query_chunks k rows <> [].
Proof. destruct rows; discriminate. Qed.

Lemma enriched_frame r r' :
  enriched dict_translations r r' ->
  length r' = length r
  /\ forall name, name <> "item_gr"%string ->
       cell_at name fastfood_columns r' = cell_at name fastfood_columns r.
Proof.
  intros [item [t [_ [-> _]]]]. split.
  - unfold set_cell. destruct (col_index _ _); [apply length_insert|reflexivity].
  - intros name Hne. apply cell_at_set_cell_ne. exact Hne.
Qed.

Lemma populate_frame f a p (st : Env World) r st' :
  keyed (working (conn st)) ->
  populate_item_gr_column translate_word dict_translations f a p st
  = (r, st') ->
  map row_id (working (conn st')) = map row_id (working (conn st))
  /\ Forall2 (fun r0 r1 =>
                length r1 = length r0
                /\ forall name, name <> "item_gr"%string ->
                     cell_at name fastfood_columns r1
                     = cell_at name fastfood_columns r0)
       (working (conn st)) (working (conn st'))
  /\ (committed (conn st) = working (conn st) ->
      committed (conn st') = working (conn st')).
Proof.
  intros Hk E. apply populate_item_gr_column_spec in E; [|exact Hk].
  destruct E as [_ [Hnone Hsome]].
  assert (Hrefl : forall rows : list row,
            Forall2 (fun r0 r1 : row =>
                       length r1 = length r0
                       /\ forall name, name <> "item_gr"%string ->
                            cell_at name fastfood_columns r1
                            = cell_at name fastfood_columns r0) rows rows).
  { intros rows. induction rows; constructor; [split; reflexivity | assumption]. }
  destruct (TranslatorModule.calculate_chunk_size f a p) as [cs|] eqn:Hcs.
  - destruct (Hsome cs eq_refl)
      as [done [E [rest [Hq [HE [Hw [Hcm [Hsame _]]]]]]]].
    assert (Hrows : working (conn st) = concat done ++ concat rest).
    { rewrite <- concat_app, <- Hq. symmetry. apply concat_query_chunks.
      eapply translator_chunk_size_pos, Hcs. }
    rewrite Hw, Hrows. split; [|split].
    + rewrite !map_app. rewrite (enriched_ids _ _ _ HE). reflexivity.
    + apply Forall2_app; [|apply Hrefl].
      clear -HE. induction HE as [|r0 r1 l l' H _ IH]; constructor;
        [eapply enriched_frame; exact H | exact IH].
    + rewrite <- Hw, <- Hrows. intros Hc. destruct done as [|d done].
      * rewrite (Hsame eq_refl). exact Hc.
      * apply Hcm. discriminate.
  - destruct (Hnone eq_refl) as [_ ->].
    split; [reflexivity|]. split; [apply Hrefl | tauto].
Qed.

(** What a run that returned has done. *)
Lemma populate_done f a p (st : Env World) st' :
  keyed (working (conn st)) ->
  populate_item_gr_column translate_word dict_translations f a p st
  = (inr tt, st') ->
  Forall2 (enriched dict_translations)
    (working (conn st)) (working (conn st'))
  /\ committed (conn st') = working (conn st').
Proof.
  intros Hk E. apply populate_item_gr_column_spec in E; [|exact Hk].
  destruct E as [_ [Hnone Hsome]].
  destruct (TranslatorModule.calculate_chunk_size f a p) as [cs|] eqn:Hcs;
    [|destruct (Hnone eq_refl); discriminate].
  destruct (Hsome cs eq_refl)
    as [done [E [rest [Hq [HE [Hw [Hcm [_ ->]]]]]]]].
  rewrite app_nil_r in Hq, Hw. simpl in Hw.
  assert (Hrows : concat done = working (conn st)).
  { rewrite <- Hq. apply concat_query_chunks.
    eapply translator_chunk_size_pos, Hcs. }
  rewrite Hw, <- Hrows. split; [exact HE|]. rewrite <- Hw. apply Hcm.
  rewrite <- Hq. apply query_chunks_nonempty.
Qed.

(** Runs in which the translation of every item returns, with a relation
    [R] between the states that every step keeps. *)
Variable R : Env World -> Env World -> Prop.
Hypothesis R_same :
  forall st st', world st' = world st -> calls st' = calls st -> R st st'.
Hypothesis R_trans : forall st1 st2 st3, R st1 st2 -> R st2 st3 -> R st1 st3.

Lemma translate_chunk_ok chunk (st : Env World) :
  Forall (translates translate_word dict_translations R) chunk ->
  exists vals st',
    mapM (fun row =>
            translate_item_cell translate_word dict_translations
              (default NA (cell_at "item" fastfood_columns row)))
         chunk st = (inr vals, st')
    /\ R st st'.
Proof using R_same R_trans.
  intros H. revert st. induction H as [|r chunk Hr _ IH]; intros st.
  - exists [], st. split; [reflexivity | apply R_same; reflexivity].
  - destruct (Hr st) as [g [st0 [E0 R0]]].
    destruct (IH st0) as [vals [st1 [E1 R1]]].
    exists (g :: vals), st1. split; [|eapply R_trans; eassumption].
    simpl. unfold bind at 1. rewrite E0. unfold bind at 1. rewrite E1.
    reflexivity.
Qed.

Lemma populate_chunk_ok pre chunk post (st : Env World) :
  keyed (pre ++ chunk ++ post) ->
  working (conn st) = pre ++ chunk ++ post ->
  Forall (translates translate_word dict_translations R) chunk ->
  exists st',
    populate_chunk translate_word dict_translations chunk st = (inr tt, st')
    /\ R st st'.
Proof using R_same R_trans.
  intros Hk Hw H.
  destruct (translate_chunk_ok chunk st H) as [vals [st1 [E1 R1]]].
  pose proof (translate_chunk_traced _ _ _ _ _ _ _ E1) as [Hc [_ Hd]].
  specialize (Hd vals eq_refl).
  unfold populate_chunk. unfold bind at 1. rewrite E1. unfold bind at 1.
  rewrite (update_loop _ pre chunk post vals st1);
    [|symmetry; eapply Forall2_length, Hd | exact Hk | congruence].
  unfold on_conn, commit, modify. simpl. eexists. split; [reflexivity|].
  eapply R_trans; [exact R1|]. apply R_same; reflexivity.
Qed.

Lemma populate_loop_ok chunks pre (st : Env World) :
  keyed (pre ++ concat chunks) ->
  working (conn st) = pre ++ concat chunks ->
  Forall (Forall (translates translate_word dict_translations R))
    chunks ->
  exists st',
    for_each chunks (populate_chunk translate_word dict_translations) st
    = (inr tt, st')
    /\ R st st'.
Proof using R_same R_trans.
  intros Hk Hw H. revert pre st Hk Hw.
  induction H as [|chunk chunks Hchunk _ IH]; intros pre st Hk Hw.
  - exists st. split; [reflexivity | apply R_same; reflexivity].
  - simpl concat in Hk, Hw.
    destruct (populate_chunk_ok pre chunk (concat chunks) st Hk Hw Hchunk)
      as [st1 [E1 R1]].
    pose proof (populate_chunk_spec _ _ _ pre chunk (concat chunks) st _ _
                  Hk Hw E1) as [_ [E [HE Hc1]]].
    destruct (IH (pre ++ E) st1) as [st' [E' R']].
    + eapply keyed_same_ids, Hk. rewrite <- !app_assoc, !map_app.
      rewrite (enriched_ids _ _ _ HE). reflexivity.
    + rewrite Hc1. simpl. rewrite <- app_assoc. reflexivity.
    + exists st'. split; [|eapply R_trans; eassumption].
      simpl for_each. unfold bind at 1. rewrite E1. exact E'.
Qed.

Lemma populate_ok f a p chunk_size (st : Env World) :
  keyed (working (conn st)) ->
  TranslatorModule.calculate_chunk_size f a p = Some chunk_size ->
  Forall (translates translate_word dict_translations R)
    (working (conn st)) ->
  exists st',
    populate_item_gr_column translate_word dict_translations f a p st
    = (inr tt, st')
    /\ R st st'.
Proof using R_same R_trans.
  intros Hk Hcs H. unfold populate_item_gr_column. rewrite Hcs.
  unfold bind, get.
  assert (Hq : concat (query_chunks (Z.to_nat chunk_size) (working (conn st)))
               = working (conn st))
    by (apply concat_query_chunks; eapply translator_chunk_size_pos, Hcs).
  apply (populate_loop_ok _ []); simpl; rewrite ?Hq; try assumption;
    try reflexivity.
  apply Forall_concat. rewrite Hq. exact H.
Qed.

End EnrichmentFrame.

(** X10: whether [populate_item_gr_column] returns or raises, the table
    keeps its rows in their order with their keys, every row keeps its
    length and all its cells other than [item_gr], the key constraint still
    holds, and nothing is left uncommitted if nothing was before. *)
Theorem enrichment_writes_item_gr_only
    (World : Type) (translate_word : str -> str -> World -> (exn + str) * World)
    (dict_translations : gmap str str)
    (memory_fraction available_memory_gb : Q) (one_row_bytes : Z)
    (st : Env World) (r : exn + unit) (st' : Env World) :
  keyed (working (conn st)) ->
  populate_item_gr_column translate_word dict_translations memory_fraction
    available_memory_gb one_row_bytes st = (r, st') ->
  keyed (working (conn st'))
  /\ Forall2 (fun r0 r1 =>
                length r1 = length r0
                /\ forall name, name <> "item_gr"%string ->
                     cell_at name fastfood_columns r1
                     = cell_at name fastfood_columns r0)
       (working (conn st)) (working (conn st'))
  /\ (committed (conn st) = working (conn st) ->
      committed (conn st') = working (conn st')).
Proof.
  intros Hk E. apply populate_frame in E; [|exact Hk].
  destruct E as [Hids [Hcells Hcm]]. split; [|split; assumption].
  eapply keyed_same_ids, Hk. exact Hids.
Qed.

(** The run on the sample table with a collaborator that is down from its
    third call on. *)
Lemma enrichment_writes_item_gr_only_witness :
  let st := mkEnv (mkConnection sample_table sample_table) 0%nat [] in
  let run :=
    populate_item_gr_column two_calls_then_down sample_dict (1 # 2)
      (get_available_memory 100) 100 st in
  keyed (working (conn (snd run)))
  /\ Forall2 (fun r0 r1 =>
                length r1 = length r0
                /\ forall name, name <> "item_gr"%string ->
                     cell_at name fastfood_columns r1
                     = cell_at name fastfood_columns r0)
       sample_table (working (conn (snd run)))
  /\ (sample_table = sample_table ->
      committed (conn (snd run)) = working (conn (snd run))).
Proof.
  intros st run.
  apply (enrichment_writes_item_gr_only nat two_calls_then_down sample_dict
           (1 # 2)%Q (get_available_memory 100) 100%Z st (fst run) (snd run)).
  - unfold keyed. apply (bool_decide_unpack _). vm_compute. exact I.
  - apply surjective_pairing.
Defined.




(** X12: when the curated dictionary has every item of the table,
    [populate_item_gr_column] returns without a call of the collaborator,
    whatever the collaborator would do: every row gets the curated
    translation of its item, and the result is committed. *)
Theorem enrichment_offline
    (World : Type) (translate_word : str -> str -> World -> (exn + str) * World)
    (dict_translations : gmap str str)
    (memory_fraction available_memory_gb : Q) (one_row_bytes chunk_size : Z)
    (st : Env World) :
  keyed (working (conn st)) ->
  Forall (fun r => exists item,
            cell_at "item" fastfood_columns r = Some (CStr item)
            /\ is_Some (dict_translations !! item))
    (working (conn st)) ->
  TranslatorModule.calculate_chunk_size memory_fraction available_memory_gb
    one_row_bytes = Some chunk_size ->
  exists st',
    populate_item_gr_column translate_word dict_translations memory_fraction
      available_memory_gb one_row_bytes st = (inr tt, st')
    /\ world st' = world st
    /\ calls st' = calls st
    /\ committed (conn st') = working (conn st')
    /\ Forall2 (fun r r' =>
                  exists item v,
                    cell_at "item" fastfood_columns r = Some (CStr item)
                    /\ dict_translations !! item = Some v
                    /\ r' = set_cell "item_gr" fastfood_columns (CStr v) r)
         (working (conn st)) (working (conn st')).
Proof.
  intros Hk Hitems Hcs.
  destruct (populate_ok World translate_word dict_translations
              (fun s s' => world s' = world s /\ calls s' = calls s)
              (fun _ _ Hw Hc => conj Hw Hc)
              (fun s1 s2 s3 H12 H23 =>
                 conj (eq_trans (proj1 H23) (proj1 H12))
                      (eq_trans (proj2 H23) (proj2 H12)))
              memory_fraction available_memory_gb one_row_bytes chunk_size
              st Hk Hcs) as [st' [E [Hw Hc]]].
  { eapply Forall_impl; [exact Hitems|]. intros r [item [Hi [v Hv]]] s.
    rewrite Hi. simpl. unfold bind, translate_item. rewrite Hv.
    eexists _, _. split; [reflexivity | split; reflexivity]. }
  exists st'. split; [exact E|]. split; [exact Hw|]. split; [exact Hc|].
  destruct (populate_done World translate_word dict_translations
              memory_fraction available_memory_gb one_row_bytes st st' Hk E)
    as [HE Hcm].
  split; [exact Hcm|].
  assert (Hboth : Forall2 (fun r r' =>
                     (exists item,
                        cell_at "item" fastfood_columns r = Some (CStr item)
                        /\ is_Some (dict_translations !! item))
                     /\ enriched dict_translations r r')
                    (working (conn st)) (working (conn st'))).
  { clear -Hitems HE. induction HE as [|r r' l l' H _ IH];
      [constructor|].
    apply Forall_cons in Hitems. destruct Hitems as [Hr Hl].
    constructor; [split; assumption | apply IH, Hl]. }
  eapply Forall2_impl; [exact Hboth|].
  intros r r' [[item [Hi [v Hv]]] [item' [t [Hi' [-> Ht]]]]].
  assert (item' = item) by congruence. subst item'.
  exists item, v. rewrite (Ht v Hv). repeat split; assumption.
Qed.

(** The table of the one item of the sample dictionary, with a
    collaborator that is down. *)
Lemma enrichment_offline_witness :
  let st :=
    mkEnv (mkConnection [sample_row 2 "Cola" (CInt 140)]
             [sample_row 2 "Cola" (CInt 140)]) 5%nat [] in
  exists st',
    populate_item_gr_column two_calls_then_down sample_dict (1 # 2)
      (get_available_memory 100) 100 st = (inr tt, st')
    /\ world st' = world st
    /\ calls st' = calls st
    /\ committed (conn st') = working (conn st')
    /\ Forall2 (fun r r' =>
                  exists item v,
                    cell_at "item" fastfood_columns r = Some (CStr item)
                    /\ sample_dict !! item = Some v
                    /\ r' = set_cell "item_gr" fastfood_columns (CStr v) r)
         (working (conn st)) (working (conn st')).
Proof.
  intros st.
  apply (enrichment_offline nat two_calls_then_down sample_dict
           (1 # 2)%Q (get_available_memory 100) 100%Z 1%Z st).
  - unfold keyed. apply (bool_decide_unpack _). vm_compute. exact I.
  - repeat constructor. eexists. split; [reflexivity|].
    eexists. apply lookup_singleton_eq.
  - vm_compute. reflexivity.
Defined.

(** ** Classification as a whole *)

Section ClassificationWriteBack.
Variable parse_numeric : str -> option Q.
Variable fit_predict : nat -> list (list Q) -> exn + list nat.

#[local] Arguments vector_complete : simpl never.
#[local] Arguments feature_vector : simpl never.

Lemma row_get_category {S} v (r : row) (st : S) :
  length r = length fastfood_columns ->
  row_get "category" fastfood_columns
    (set_cell "category" fastfood_columns v r) st = (inr v, st).
Proof.
  intros Hl. unfold row_get, cell_at, set_cell.
  change (col_index "category" fastfood_columns) with (Some 19%nat).
  cbv iota beta. rewrite list_lookup_insert_eq; [reflexivity|].
  rewrite Hl. simpl. lia.
Qed.

Lemma keyed_move pre (r r' : row) post :
  row_id r' = row_id r ->
  keyed (pre ++ r :: post) -> keyed ((pre ++ [r']) ++ post).
Proof.
  intros Hid Hk. eapply keyed_same_ids, Hk.
  rewrite <- !app_assoc, !map_app. simpl. rewrite Hid. reflexivity.
Qed.

(** The loop that writes the categories back reaches, in a keyed table,
    the rows the frame was made of. *)
Lemma category_updates pre rows ks (xs : list (nat * row)) (c : Connection) :
  keyed (pre ++ rows) -> working c = pre ++ rows ->
  Forall (fun r : row => length r = length fastfood_columns) rows ->
  map snd xs = marked parse_numeric rows ks ->
  for_each xs
    (fun ir : nat * row =>
       let* category := row_get "category" fastfood_columns (snd ir) in
       let* id := row_get "id" fastfood_columns (snd ir) in
       execute_update "category" category id) c
  = (inr tt,
     mkConnection (committed c) (pre ++ categorized parse_numeric rows ks)).
Proof.
  intros Hk Hw Hfull. revert pre ks xs c Hk Hw.
  induction Hfull as [|r rows Hr _ IH]; intros pre ks xs c Hk Hw Hxs.
  - destruct xs; [|discriminate]. destruct c. simpl in *. subst.
    reflexivity.
  - assert (Hskip : forall ks' xs' (c0 : Connection),
              working c0 = pre ++ r :: rows -> committed c0 = committed c ->
              map snd xs' = marked parse_numeric rows ks' ->
              for_each xs'
                (fun ir : nat * row =>
                   let* category :=
                     row_get "category" fastfood_columns (snd ir) in
                   let* id := row_get "id" fastfood_columns (snd ir) in
                   execute_update "category" category id) c0
              = (inr tt,
                 mkConnection (committed c)
                   (pre ++ r :: categorized parse_numeric rows ks'))).
    { intros ks' xs' c0 Hw0 Hc0 Hxs'.
      rewrite (IH (pre ++ [r]) ks' xs' c0).
      - rewrite Hc0, <- app_assoc. reflexivity.
      - rewrite <- app_assoc. exact Hk.
      - rewrite <- app_assoc. exact Hw0.
      - exact Hxs'. }
    simpl in Hxs. simpl categorized.
    destruct (vector_complete (feature_vector parse_numeric r));
      [|apply Hskip; [exact Hw | reflexivity | exact Hxs]].
    destruct ks as [|k ks].
    + destruct xs; [|discriminate]. destruct c. simpl in *. subst.
      reflexivity.
    + destruct xs as [|x xs]; [discriminate|]. simpl in Hxs.
      injection Hxs as Hx Hxs.
      destruct (keyed_row_id pre r rows Hk) as [z Hz].
      assert (Hid : row_id (set_cell "category" fastfood_columns
                              (map_category k) r) = row_id r)
        by (eapply row_id_set_cell; reflexivity).
      simpl for_each. unfold bind at 1. unfold bind at 1. rewrite Hx.
      rewrite (row_get_category _ r c Hr). unfold bind at 1.
      rewrite (row_get_id z _ c (eq_trans Hid Hz)).
      rewrite execute_update_eq, Hw.
      rewrite (update_rows_keyed "category" _ z pre r rows Hk Hz).
      rewrite (IH (pre ++ [set_cell "category" fastfood_columns
                             (map_category k) r]) ks xs).
      * simpl. rewrite <- app_assoc. reflexivity.
      * apply (keyed_move pre r); assumption.
      * simpl. rewrite <- app_assoc. reflexivity.
      * exact Hxs.
Qed.

Lemma frame_labels {A} k (rows : list A) :
  map fst (imap (fun j r => (k + j, r)%nat) rows) = seq k (length rows).
Proof.
  revert k. induction rows as [|x rows IH]; intros k; [reflexivity|].
  simpl. rewrite Nat.add_0_r. f_equal. rewrite <- (IH (S k)).
  f_equal. apply imap_ext. intros j y _. simpl. f_equal. lia.
Qed.

Lemma frame_values {A} k (rows : list A) :
  map snd (imap (fun j r => (k + j, r)%nat) rows) = rows.
Proof.
  revert k. induction rows as [|x rows IH]; intros k; [reflexivity|].
  simpl. f_equal. rewrite <- (IH (S k)) at 2.
  f_equal. apply imap_ext. intros j y _. simpl. f_equal. lia.
Qed.

Lemma loc_nodup {A} (L : list (nat * A)) ir :
  NoDup (map fst L) -> In ir L -> loc (fst ir) L = Some (snd ir).
Proof.
  induction L as [|[j a] L IH]; [contradiction|]. simpl.
  intros Hn. apply NoDup_cons in Hn. destruct Hn as [Hj Hn].
  intros [<-|Hin]; simpl; [rewrite Nat.eqb_refl; reflexivity|].
  destruct (Nat.eqb_spec j (fst ir)) as [->|_]; [|apply IH; assumption].
  exfalso. apply Hj, list_elem_of_In, in_map, Hin.
Qed.

Lemma mapM_loc_all {S A} (L sub : list (nat * A)) (st : S) :
  NoDup (map fst L) -> incl sub L ->
  mapM (fun i => match loc i L with
                 | Some r => ret (i, r)
                 | None => raise (KeyError "index")
                 end) (map fst sub) st = (inr sub, st).
Proof.
  intros Hn. induction sub as [|x sub IH]; intros Hsub; [reflexivity|].
  simpl. unfold bind at 1.
  rewrite (loc_nodup L x Hn) by (apply Hsub; left; reflexivity).
  unfold ret at 1. unfold bind at 1. rewrite IH.
  - destruct x. reflexivity.
  - intros y Hy. apply Hsub. right. exact Hy.
Qed.

Lemma NoDup_filter_labels {A} (P : nat * A -> bool) (L : list (nat * A)) :
  NoDup (map fst L) -> NoDup (map fst (List.filter P L)).
Proof.
  induction L as [|x L IH]; simpl; [intros; constructor|]. intros Hn.
  apply NoDup_cons in Hn. destruct Hn as [Hx Hn].
  destruct (P x); [|apply IH, Hn]. simpl. apply NoDup_cons.
  split; [|apply IH, Hn]. intros Hin. apply Hx.
  apply list_elem_of_In, in_map_iff in Hin. destruct Hin as [y [Hy Hin]].
  apply List.filter_In in Hin. destruct Hin as [Hin _].
  rewrite <- Hy. apply list_elem_of_In, in_map, Hin.
Qed.

(** The join of the categories with the kept rows on the index labels. *)
Lemma loc_zip {A B} (F : cell -> nat * A -> B) (K : list (nat * A)) vs :
  NoDup (map fst K) -> length vs = length K ->
  map (fun ir => F (default NA (loc (fst ir) (zip (map fst K) vs))) ir) K
  = zip_with (fun ir v => F v ir) K vs.
Proof.
  revert vs. induction K as [|[i a] K IH]; intros vs Hn Hl; [reflexivity|].
  destruct vs as [|v vs]; [discriminate Hl|]. simpl in Hn, Hl.
  apply NoDup_cons in Hn. destruct Hn as [Hi Hn].
  simpl. rewrite Nat.eqb_refl. simpl. f_equal.
  rewrite <- IH by (assumption || lia).
  apply map_ext_in. intros [j b] Hj. simpl.
  destruct (Nat.eqb_spec i j) as [->|_]; [|reflexivity].
  exfalso. apply Hi, list_elem_of_In.
  change j with (fst (j, b)). apply in_map, Hj.
Qed.

Lemma feature_labels (L : list (nat * row)) :
  map fst
    (List.filter (fun ir => vector_complete (snd ir))
       (map (fun ir => (fst ir, feature_vector parse_numeric (snd ir))) L))
  = map fst
      (List.filter
         (fun ir => vector_complete (feature_vector parse_numeric (snd ir)))
         L).
Proof.
  induction L as [|x L IH]; [reflexivity|]. simpl.
  destruct (vector_complete _); simpl; rewrite IH; reflexivity.
Qed.

Lemma feature_rows (L : list (nat * row)) :
  map (fun ir => omap (fun x => x) (snd ir))
    (List.filter (fun ir => vector_complete (snd ir))
       (map (fun ir => (fst ir, feature_vector parse_numeric (snd ir))) L))
  = feature_matrix parse_numeric (map snd L).
Proof.
  unfold feature_matrix.
  induction L as [|x L IH]; [reflexivity|]. simpl.
  destruct (vector_complete _); simpl; rewrite IH; reflexivity.
Qed.

Lemma marked_zip (L : list (nat * row)) ks :
  map snd
    (zip_with
       (fun (ir : nat * row) v =>
          (fst ir, set_cell "category" fastfood_columns v (snd ir)))
       (List.filter
          (fun ir => vector_complete (feature_vector parse_numeric (snd ir)))
          L)
       (map map_category ks))
  = marked parse_numeric (map snd L) ks.
Proof.
  revert ks. induction L as [|x L IH]; intros ks; [reflexivity|]. simpl.
  destruct (vector_complete _); [|apply IH].
  destruct ks as [|k ks]; [reflexivity|]. simpl. f_equal. apply IH.
Qed.

(** What [classify_items] returns when the numeric pipeline returns one
    cluster for each vector. *)
Lemma classify_items_returns n_clusters (c : Connection) clusters :
  fit_predict n_clusters (feature_matrix parse_numeric (working c))
  = inr clusters ->
  length clusters = length (feature_matrix parse_numeric (working c)) ->
  exists df,
    classify_items parse_numeric fit_predict n_clusters c = (inr df, c)
    /\ df_columns df = fastfood_columns
    /\ map snd (df_rows df) = marked parse_numeric (working c) clusters.
Proof.
  intros Hfit Hlen.
  unfold classify_items, read_fastfood. unfold bind at 1. unfold bind at 1.
  unfold get, ret at 1.
  change (df_columns (frame_of fastfood_columns (working c)))
    with fastfood_columns.
  set (L := df_rows (frame_of fastfood_columns (working c))).
  assert (HL : map snd L = working c) by apply (frame_values 0).
  assert (Hn : NoDup (map fst L)).
  { unfold L, frame_of. simpl df_rows. rewrite (frame_labels 0).
    apply NoDup_seq. }
  rewrite feature_rows, HL, Hfit.
  set (FD := List.filter (fun ir => vector_complete (snd ir)) (map _ L)).
  set (kept := List.filter
                 (fun ir => vector_complete
                              (feature_vector parse_numeric (snd ir))) L).
  assert (Hlab : map fst FD = map fst kept) by apply feature_labels.
  assert (HFD : length FD = length kept)
    by (rewrite <- (length_map fst FD), Hlab; apply length_map).
  assert (Hk : length (feature_matrix parse_numeric (working c))
               = length kept).
  { unfold feature_matrix, kept. rewrite length_map, <- HL.
    clear. induction L as [|x L IH]; [reflexivity|]. simpl.
    destruct (vector_complete _); simpl; rewrite IH; reflexivity. }
  rewrite HFD, <- Hk, Hlen, Nat.eqb_refl, Hlab.
  unfold bind at 1. rewrite (mapM_loc_all L kept c Hn).
  - eexists. split; [reflexivity|]. split; [reflexivity|].
    cbn [df_rows].
    rewrite (loc_zip
               (fun v (ir : nat * row) =>
                  (fst ir, set_cell "category" fastfood_columns v (snd ir)))
               kept (map map_category clusters)).
    + rewrite <- HL. apply marked_zip.
    + apply NoDup_filter_labels, Hn.
    + rewrite length_map, Hlen, Hk. reflexivity.
  - intros x Hx. apply List.filter_In in Hx. apply Hx.
Qed.

End ClassificationWriteBack.

(** The run with a pipeline that returns one cluster for each vector. *)
Lemma classification_returns
    (parse_numeric : str -> option Q)
    (fit_predict : nat -> list (list Q) -> exn + list nat)
    (n_clusters : nat) (c : Connection) (clusters : list nat) :
  keyed (working c) ->
  Forall (fun r : row => length r = length fastfood_columns) (working c) ->
  fit_predict n_clusters (feature_matrix parse_numeric (working c))
  = inr clusters ->
  length clusters = length (feature_matrix parse_numeric (working c)) ->
  classify_items_and_add_category parse_numeric fit_predict n_clusters c
  = (inr tt,
     mkConnection (categorized parse_numeric (working c) clusters)
       (categorized parse_numeric (working c) clusters)).
Proof.
  intros Hk Hfull Hfit Hlen.
  destruct (classify_items_returns parse_numeric fit_predict n_clusters c
              clusters Hfit Hlen) as [df [E [Hcols Hrows]]].
  unfold classify_items_and_add_category. unfold bind at 1. rewrite E.
  unfold bind at 1. rewrite Hcols.
  rewrite (category_updates parse_numeric [] (working c) clusters
             (df_rows df) c Hk eq_refl Hfull Hrows).
  reflexivity.
Qed.

(** X13: on a keyed table with rows of full length, when the numeric
    pipeline returns one cluster for each complete feature vector, the
    classification run returns: the rows with a complete feature vector
    then hold the categories of the clusters, dealt in the order of the
    table, the other rows are as before, and the result is committed. *)
Theorem classification_writes_categories
    (parse_numeric : str -> option Q)
    (fit_predict : nat -> list (list Q) -> exn + list nat)
    (n_clusters : nat) (c : Connection) (clusters : list nat) :
  keyed (working c) ->
  Forall (fun r : row => length r = length fastfood_columns) (working c) ->
  fit_predict n_clusters (feature_matrix parse_numeric (working c))
  = inr clusters ->
  length clusters = length (feature_matrix parse_numeric (working c)) ->
  classify_items_and_add_category parse_numeric fit_predict n_clusters c
  = (inr tt,
     mkConnection (categorized parse_numeric (working c) clusters)
       (categorized parse_numeric (working c) clusters)).
Proof.
  intros. apply classification_returns; assumption.
Qed.

(** The sample table whose second row lacks its calories, and a pipeline
    that deals the cluster ids in turn. *)
Lemma classification_writes_categories_witness :
  let c := mkConnection sample_table_incomplete sample_table_incomplete in
  classify_items_and_add_category sample_parse_numeric sample_fit_predict 3 c
  = (inr tt,
     mkConnection
       (categorized sample_parse_numeric (working c) [0; 1]%nat)
       (categorized sample_parse_numeric (working c) [0; 1]%nat)).
Proof.
  intros c.
  apply (classification_writes_categories sample_parse_numeric
           sample_fit_predict 3%nat c [0; 1]%nat).
  - unfold keyed. apply (bool_decide_unpack _). vm_compute. exact I.
  - repeat constructor.
  - vm_compute. reflexivity.
  - reflexivity.
Defined.

(** The run with a pipeline that raises, or returns too few or too many
    clusters. *)
Lemma classification_raises
    (parse_numeric : str -> option Q)
    (fit_predict : nat -> list (list Q) -> exn + list nat)
    (n_clusters : nat) (c : Connection) :
  (forall e,
     fit_predict n_clusters (feature_matrix parse_numeric (working c))
     = inl e ->
     classify_items_and_add_category parse_numeric fit_predict n_clusters c
     = (inl e, c))
  /\ (forall clusters,
        fit_predict n_clusters (feature_matrix parse_numeric (working c))
        = inr clusters ->
        length clusters
        <> length (feature_matrix parse_numeric (working c)) ->
        classify_items_and_add_category parse_numeric fit_predict n_clusters c
        = (inl ValueError, c)).
Proof.
  assert (HL : map snd (df_rows (frame_of fastfood_columns (working c)))
               = working c) by apply (frame_values 0).
  split.
  - intros e Hfit.
    unfold classify_items_and_add_category, classify_items, read_fastfood.
    unfold bind at 1. unfold bind at 1. unfold bind at 1.
    unfold get, ret at 1.
    rewrite feature_rows, HL, Hfit. reflexivity.
  - intros clusters Hfit Hlen.
    unfold classify_items_and_add_category, classify_items, read_fastfood.
    unfold bind at 1. unfold bind at 1. unfold bind at 1.
    unfold get, ret at 1.
    rewrite feature_rows, HL, Hfit.
    match goal with |- context [(length clusters =? ?n)%nat] =>
      replace n with (length (feature_matrix parse_numeric (working c)))
    end.
    + destruct (Nat.eqb_spec (length clusters)
                  (length (feature_matrix parse_numeric (working c))));
        [contradiction | reflexivity].
    + rewrite <- HL at 1. rewrite <- (feature_rows parse_numeric).
      apply length_map.
Qed.

(** X14: when the numeric pipeline raises, the classification run raises
    the same exception, and when it returns a number of clusters other than
    the number of complete feature vectors, the run raises [ValueError]; in
    both cases the connection is as it was: nothing is written, nothing is
    committed. *)
Theorem classification_failure_writes_nothing
    (parse_numeric : str -> option Q)
    (fit_predict : nat -> list (list Q) -> exn + list nat)
    (n_clusters : nat) (c : Connection) :
  (forall e,
     fit_predict n_clusters (feature_matrix parse_numeric (working c))
     = inl e ->
     classify_items_and_add_category parse_numeric fit_predict n_clusters c
     = (inl e, c))
  /\ (forall clusters,
        fit_predict n_clusters (feature_matrix parse_numeric (working c))
        = inr clusters ->
        length clusters
        <> length (feature_matrix parse_numeric (working c)) ->
        classify_items_and_add_category parse_numeric fit_predict n_clusters c
        = (inl ValueError, c)).
Proof.
  apply classification_raises.
Qed.

(** ** The table across the stages of the pipeline *)

Section TableInvariant.
Variable World : Type.
Variable translate_word : str -> str -> World -> (exn + str) * World.
Variable dict_translations : gmap str str.
Variable parse_numeric : str -> option Q.
Variable fit_predict : nat -> list (list Q) -> exn + list nat.

Lemma Forall2_right {A B} (R : A -> B -> Prop) (P : B -> Prop) l k :
  (forall a b, R a b -> P b) -> Forall2 R l k -> Forall P k.
Proof.
  intros H. induction 1 as [|a b l k Hab _ IH]; constructor;
    [eapply H, Hab | exact IH].
Qed.

Lemma Forall2_transfer {A} (R : A -> A -> Prop) (P : A -> Prop) l k :
  (forall a b, R a b -> P a -> P b) ->
  Forall2 R l k -> Forall P l -> Forall P k.
Proof.
  intros H. induction 1 as [|a b l k Hab _ IH]; intros Hl; [constructor|].
  apply Forall_cons in Hl. destruct Hl as [Ha Hl].
  constructor; [eapply H; eassumption | apply IH, Hl].
Qed.

Lemma ingested_row_ok columns i src (r : row) :
  col_index "item" columns = Some i ->
  ingested columns i src r ->
  length r = length fastfood_columns
  /\ exists s, cell_at "item" fastfood_columns r = Some (CStr s).
Proof.
  intros Hi [dst [[_ [s [Hs Hd]]] [_ [Hlen Hcells]]]].
  split; [exact Hlen|]. exists (clean_item_name s).
  rewrite (Hcells "item"%string);
    [|simpl; auto 10 | discriminate].
  unfold cell_at. rewrite Hi, Hd.
  destruct (snd src !! i) as [y|] eqn:Hy; [|discriminate Hs].
  rewrite list_lookup_insert_eq; [reflexivity|].
  eapply lookup_lt_Some, Hy.
Qed.

Lemma load_keeps_table_ok csv a p f (c : Connection) res c' :
  table_ok c ->
  load_csv_to_db csv a p f c = (res, c') -> table_ok c'.
Proof.
  intros [Hcw [Hk Hrows]] E.
  apply load_appends in E; [|exact Hcw|exact Hk].
  destruct E as [Hcw' [Hk' [loaded [rest [news [_ [Hw [Hing [Hnone _]]]]]]]]].
  split; [exact Hcw'|]. split; [exact Hk'|].
  rewrite Hw. apply Forall_app. split; [exact Hrows|].
  destruct (col_index "item" (df_columns csv)) as [i|] eqn:Hi.
  - eapply Forall2_right; [|apply (Hing i eq_refl)].
    intros src r. apply ingested_row_ok, Hi.
  - rewrite (Hnone eq_refl). constructor.
Qed.

Lemma populate_keeps_table_ok f a p (st : Env World) r st' :
  table_ok (conn st) ->
  populate_item_gr_column translate_word dict_translations f a p st
  = (r, st') ->
  table_ok (conn st').
Proof.
  intros [Hcw [Hk Hrows]] E.
  apply populate_frame in E; [|exact Hk].
  destruct E as [Hids [Hcells Hcm]].
  split; [apply Hcm, Hcw|]. split; [eapply keyed_same_ids, Hk; exact Hids|].
  eapply Forall2_transfer; [|exact Hcells|exact Hrows].
  intros r0 r1 [Hl Hc] [Hl0 [s Hs]].
  split; [congruence|]. exists s. rewrite Hc; [exact Hs | discriminate].
Qed.

Lemma categorized_ids rows ks :
  map row_id (categorized parse_numeric rows ks) = map row_id rows.
Proof.
  revert ks. induction rows as [|r rows IH]; intros ks; [reflexivity|].
  cbn [categorized].
  destruct (vector_complete _); [|simpl; rewrite IH; reflexivity].
  destruct ks as [|k ks]; [reflexivity|]. simpl. rewrite IH. f_equal.
  eapply row_id_set_cell. reflexivity.
Qed.

Lemma categorized_rows rows ks :
  Forall2 (fun r0 r1 : row =>
             length r1 = length r0
             /\ cell_at "item" fastfood_columns r1
                = cell_at "item" fastfood_columns r0)
    rows (categorized parse_numeric rows ks).
Proof.
  assert (Hrefl : forall l : list row,
            Forall2 (fun r0 r1 : row =>
                       length r1 = length r0
                       /\ cell_at "item" fastfood_columns r1
                          = cell_at "item" fastfood_columns r0) l l).
  { intros l. induction l; constructor; [split; reflexivity | assumption]. }
  revert ks. induction rows as [|r rows IH]; intros ks; [constructor|].
  cbn [categorized].
  destruct (vector_complete _);
    [|constructor; [split; reflexivity | apply IH]].
  destruct ks as [|k ks]; [apply Hrefl|].
  constructor; [|apply IH]. split.
  - unfold set_cell. destruct (col_index _ _);
      [apply length_insert | reflexivity].
  - apply cell_at_set_cell_ne. discriminate.
Qed.

Lemma categorized_table_ok rows ks :
  table_ok (mkConnection rows rows) ->
  table_ok (mkConnection (categorized parse_numeric rows ks)
              (categorized parse_numeric rows ks)).
Proof.
  intros [_ [Hk Hrows]]. simpl in Hk, Hrows.
  split; [reflexivity|]. simpl.
  split; [eapply keyed_same_ids, Hk; apply categorized_ids|].
  eapply Forall2_transfer; [|apply categorized_rows|exact Hrows].
  intros r0 r1 [Hl Hc] [Hl0 [s Hs]].
  split; [congruence|]. exists s. congruence.
Qed.

Lemma classify_keeps_table_ok n_clusters (c : Connection) r c' :
  table_ok c ->
  classify_items_and_add_category parse_numeric fit_predict n_clusters c
  = (r, c') ->
  table_ok c'.
Proof.
  intros Hok. pose proof Hok as [Hcw [Hk Hrows]].
  destruct (classification_raises parse_numeric fit_predict n_clusters c)
    as [Hraise Hcount].
  destruct (fit_predict n_clusters
              (feature_matrix parse_numeric (working c)))
    as [e|ks] eqn:Hfit.
  - rewrite (Hraise e eq_refl). intros [= <- <-]. exact Hok.
  - destruct (Nat.eq_dec (length ks)
                (length (feature_matrix parse_numeric (working c))))
      as [Hlen|Hlen].
    + rewrite (classification_returns parse_numeric fit_predict n_clusters
                 c ks Hk); [|eapply Forall_impl; [exact Hrows|];
                              intros x Hx; apply Hx
                            |exact Hfit|exact Hlen].
      intros [= <- <-]. apply categorized_table_ok.
      split; [reflexivity|]. split; assumption.
    + rewrite (Hcount ks eq_refl Hlen). intros [= <- <-]. exact Hok.
Qed.




End TableInvariant.

(** X15: ingestion, enrichment and classification each keep the table
    well-formed, whether they return or raise: from a table with nothing
    uncommitted, distinct integer keys, rows of full length and a string in
    every item, each of them leads to such a table. *)
Theorem table_invariant_preserved
    (World : Type) (translate_word : str -> str -> World -> (exn + str) * World)
    (dict_translations : gmap str str)
    (parse_numeric : str -> option Q)
    (fit_predict : nat -> list (list Q) -> exn + list nat) :
  (forall csv available_memory_gb row_bytes memory_fraction c res c',
     table_ok c ->
     load_csv_to_db csv available_memory_gb row_bytes memory_fraction c
     = (res, c') ->
     table_ok c')
  /\ (forall memory_fraction available_memory_gb one_row_bytes
        (st : Env World) r st',
        table_ok (conn st) ->
        populate_item_gr_column translate_word dict_translations
          memory_fraction available_memory_gb one_row_bytes st = (r, st') ->
        table_ok (conn st'))
  /\ (forall n_clusters c r c',
        table_ok c ->
        classify_items_and_add_category parse_numeric fit_predict n_clusters c
        = (r, c') ->
        table_ok c').
Proof.
  split; [|split].
  - intros. eapply load_keeps_table_ok; eassumption.
  - intros. eapply populate_keeps_table_ok; eassumption.
  - intros. eapply classify_keeps_table_ok; eassumption.
Qed.

(** The empty table and the sample table are well-formed. *)
Example table_ok_samples :
  table_ok (mkConnection [] [])
  /\ table_ok (mkConnection sample_table sample_table).
Proof.
  split; (split; [reflexivity|]; split;
          [unfold keyed; apply (bool_decide_unpack _); vm_compute; exact I|]).
  - constructor.
  - repeat constructor; eexists; reflexivity.
Qed.



(** ** Enrichment and the input of the classification *)

Section EnrichmentFeatures.
Variable World : Type.
Variable translate_word : str -> str -> World -> (exn + str) * World.
Variable dict_translations : gmap str str.
Variable parse_numeric : str -> option Q.

Lemma feature_vector_frame (r0 r1 : row) :
  (forall name, name <> "item_gr"%string ->
     cell_at name fastfood_columns r1 = cell_at name fastfood_columns r0) ->
  feature_vector parse_numeric r1 = feature_vector parse_numeric r0.
Proof.
  intros H. unfold feature_vector. apply map_ext_in. intros name Hin.
  rewrite H; [reflexivity|]. intros ->. simpl in Hin.
  repeat (destruct Hin as [Hin|Hin]; [discriminate Hin|]). exact Hin.
Qed.

Lemma populate_features f a p (st : Env World) r st' :
  keyed (working (conn st)) ->
  populate_item_gr_column translate_word dict_translations f a p st
  = (r, st') ->
  Forall2 (fun r0 r1 : row =>
             feature_vector parse_numeric r1 = feature_vector parse_numeric r0)
    (working (conn st)) (working (conn st')).
Proof.
  intros Hk E. apply populate_frame in E; [|exact Hk].
  destruct E as [_ [Hcells _]].
  eapply Forall2_impl; [exact Hcells|].
  intros r0 r1 [_ Hc]. apply feature_vector_frame, Hc.
Qed.

Lemma feature_matrix_vectors (rows rows' : list row) :
  Forall2 (fun r0 r1 : row =>
             feature_vector parse_numeric r1 = feature_vector parse_numeric r0)
    rows rows' ->
  feature_matrix parse_numeric rows' = feature_matrix parse_numeric rows.
Proof.
  unfold feature_matrix.
  induction 1 as [|r0 r1 l k Hr _ IH]; [reflexivity|].
  cbn [List.filter]. rewrite Hr.
  destruct (vector_complete _); cbn [map]; rewrite IH, ?Hr; reflexivity.
Qed.

End EnrichmentFeatures.

(** X17: enrichment does not touch the input of the classification:
    whether [populate_item_gr_column] returns or raises, every row has the
    feature vector it had, so the matrix [classify_items] hands to the
    numeric pipeline is the same before and after. *)
Theorem enrichment_keeps_features
    (World : Type) (translate_word : str -> str -> World -> (exn + str) * World)
    (dict_translations : gmap str str)
    (parse_numeric : str -> option Q)
    (memory_fraction available_memory_gb : Q) (one_row_bytes : Z)
    (st : Env World) (r : exn + unit) (st' : Env World) :
  keyed (working (conn st)) ->
  populate_item_gr_column translate_word dict_translations memory_fraction
    available_memory_gb one_row_bytes st = (r, st') ->
  Forall2 (fun r0 r1 : row =>
             feature_vector parse_numeric r1 = feature_vector parse_numeric r0)
    (working (conn st)) (working (conn st'))
  /\ feature_matrix parse_numeric (working (conn st'))
     = feature_matrix parse_numeric (working (conn st)).
Proof.
  intros Hk E.
  pose proof (populate_features World translate_word dict_translations
                parse_numeric _ _ _ st r st' Hk E) as H.
  split; [exact H | apply feature_matrix_vectors, H].
Qed.

(** The run on the sample table with a collaborator that is down from its
    third call on. *)
Lemma enrichment_keeps_features_witness :
  let st := mkEnv (mkConnection sample_table sample_table) 0%nat [] in
  let run :=
    populate_item_gr_column two_calls_then_down sample_dict (1 # 2)
      (get_available_memory 100) 100 st in
  Forall2 (fun r0 r1 : row =>
             feature_vector sample_parse_numeric r1
             = feature_vector sample_parse_numeric r0)
    sample_table (working (conn (snd run)))
  /\ feature_matrix sample_parse_numeric (working (conn (snd run)))
     = feature_matrix sample_parse_numeric sample_table.
Proof.
  intros st run.
  apply (enrichment_keeps_features nat two_calls_then_down sample_dict
           sample_parse_numeric (1 # 2)%Q (get_available_memory 100) 100%Z
           st (fst run) (snd run)).
  - unfold keyed. apply (bool_decide_unpack _). vm_compute. exact I.
  - apply surjective_pairing.
Defined.

(** ** Classifying twice *)

Section ClassifyingTwice.
Variable parse_numeric : str -> option Q.

Lemma feature_vector_category v (r : row) :
  feature_vector parse_numeric (set_cell "category" fastfood_columns v r)
  = feature_vector parse_numeric r.
Proof.
  unfold feature_vector. apply map_ext_in. intros name Hin.
  rewrite cell_at_set_cell_ne; [reflexivity|]. intros ->. simpl in Hin.
  repeat (destruct Hin as [Hin|Hin]; [discriminate Hin|]). exact Hin.
Qed.

Lemma set_category_twice v (r : row) :
  set_cell "category" fastfood_columns v
    (set_cell "category" fastfood_columns v r)
  = set_cell "category" fastfood_columns v r.
Proof.
  unfold set_cell. destruct (col_index _ _); [|reflexivity].
  apply list_insert_insert_eq.
Qed.

Lemma categorized_features rows ks :
  Forall2 (fun r0 r1 : row =>
             feature_vector parse_numeric r1 = feature_vector parse_numeric r0)
    rows (categorized parse_numeric rows ks).
Proof.
  assert (Hrefl : forall l : list row,
            Forall2 (fun r0 r1 : row =>
                       feature_vector parse_numeric r1
                       = feature_vector parse_numeric r0) l l)
    by (intros l; induction l; constructor; [reflexivity | assumption]).
  revert ks. induction rows as [|r rows IH]; intros ks; [constructor|].
  cbn [categorized].
  destruct (vector_complete _); [|constructor; [reflexivity | apply IH]].
  destruct ks as [|k ks]; [apply Hrefl|].
  constructor; [apply feature_vector_category | apply IH].
Qed.

Lemma categorized_twice rows ks :
  categorized parse_numeric (categorized parse_numeric rows ks) ks
  = categorized parse_numeric rows ks.
Proof.
  revert ks. induction rows as [|r rows IH]; intros ks; [reflexivity|].
  cbn [categorized].
  destruct (vector_complete (feature_vector parse_numeric r)) eqn:Hr.
  - destruct ks as [|k ks].
    + cbn [categorized]. rewrite Hr. reflexivity.
    + cbn [categorized]. rewrite feature_vector_category, Hr.
      rewrite set_category_twice, IH. reflexivity.
  - cbn [categorized]. rewrite Hr, IH. reflexivity.
Qed.

End ClassifyingTwice.

(** X18: classification is idempotent: the categories are no feature, so
    on a keyed table with rows of full length and a numeric pipeline that
    returns one cluster for each complete feature vector, a second run
    returns and leaves the table and the connection as the first run made
    them. *)
Theorem classification_idempotent
    (parse_numeric : str -> option Q)
    (fit_predict : nat -> list (list Q) -> exn + list nat)
    (n_clusters : nat) (c : Connection) (clusters : list nat) :
  keyed (working c) ->
  Forall (fun r : row => length r = length fastfood_columns) (working c) ->
  fit_predict n_clusters (feature_matrix parse_numeric (working c))
  = inr clusters ->
  length clusters = length (feature_matrix parse_numeric (working c)) ->
  exists c1,
    classify_items_and_add_category parse_numeric fit_predict n_clusters c
    = (inr tt, c1)
    /\ classify_items_and_add_category parse_numeric fit_predict n_clusters c1
       = (inr tt, c1).
Proof.
  intros Hk Hfull Hfit Hlen. eexists.
  split; [apply classification_returns; eassumption|].
  pose proof (feature_matrix_vectors parse_numeric _ _
                (categorized_features parse_numeric (working c) clusters))
    as Hsame.
  rewrite (classification_returns parse_numeric fit_predict n_clusters
             _ clusters).
  - cbn [working]. rewrite categorized_twice. reflexivity.
  - cbn [working]. eapply keyed_same_ids, Hk. apply categorized_ids.
  - cbn [working].
    eapply Forall2_transfer;
      [|apply (categorized_rows parse_numeric (working c) clusters)
       |exact Hfull].
    intros r0 r1 [Hl _] H0. congruence.
  - cbn [working]. rewrite Hsame. exact Hfit.
  - cbn [working]. rewrite Hsame. exact Hlen.
Qed.

(** The sample table whose second row lacks its calories, classified
    twice. *)
Lemma classification_idempotent_witness :
  let c := mkConnection sample_table_incomplete sample_table_incomplete in
  exists c1,
    classify_items_and_add_category sample_parse_numeric sample_fit_predict
      3 c = (inr tt, c1)
    /\ classify_items_and_add_category sample_parse_numeric
         sample_fit_predict 3 c1 = (inr tt, c1).
Proof.
  intros c.
  apply (classification_idempotent sample_parse_numeric sample_fit_predict
           3%nat c [0; 1]%nat).
  - unfold keyed. apply (bool_decide_unpack _). vm_compute. exact I.
  - repeat constructor.
  - vm_compute. reflexivity.
  - reflexivity.
Defined.
